(** * tweet-lib: the metrics push client ([src/metrics.ts])

    A shallow embedding of the [MetricsClient] class and of the part of the
    Node.js event loop it lives in (interval timers, outstanding gateway
    requests, promises, the one-shot [uncaughtException] listeners), followed
    by the properties of the push life cycle. *)

From Stdlib Require Import ZArith Lia.
From stdpp Require Import base option list strings gmap.

(** ** Data model *)

(** [url.Url], restricted to the three fields the class reads.  [url.parse]
    leaves [host] and [port] at [null] when the address has none. *)
Record Url := {
  href : string;
  host : option string;
  port : option string }.

(** [type Labels = { [key: string]: string }] *)
Abbreviation Labels := (gmap string string).

(** [Pushgateway.Parameters]: the identity a series is pushed and deleted
    under.  The class keeps the caller's [groupings] object and never
    writes to it: it is modelled by its value. *)
Record Parameters := {
  jobName : string;
  groupings : Labels }.

Record MetricsOptions := {
  metricsPushgatewayUrl : string;
  metricsPushgatewayPushInterval : Z;
  metricsDefaultBlacklist : option (list string);
  metricsInterval : option Z;
  metricsJobName : string }.

(** A JavaScript [Error], as far as the class looks at it. *)
Record Error := { message : string }.

(** An instance of [MetricsClient].  [_interval] is [None] for the
    [undefined] it starts with and for the [null] written by [pause]; both
    are falsy and both are ignored by [clearInterval].  [_pushgateway] is the
    gateway object, identified by the base address it was built with, and
    [_logger] the logger, identified by its name path. *)
Record MetricsClient := {
  _url : Url;
  _pushInterval : Z;
  _params : Parameters;
  _logger : list string;
  _pushgateway : string;
  _interval : option nat }.

(** [get running () { return !!this._interval; }] *)
Definition running (c : MetricsClient) : bool :=
  match _interval c with Some _ => true | None => false end.

Inductive Level := Info | Err.

(** The structured second argument of a logger call. *)
Inductive Meta :=
  | NoMeta
  | WithParams (p : Parameters)
  | WithError (e : Error) (p : Parameters)
  | WithDefaults (blacklist : option (list string)) (interval : option Z).

Record LogEntry := {
  log_logger : list string;
  log_level : Level;
  log_message : string;
  log_meta : Meta }.

Inductive Method := PushAdd | Delete.

(** The two closures handed to the gateway: the arrow function of
    [_pushStats], which captures [this], and the one of [dispose], which
    captures [this] and the [resolve]/[reject] pair of its promise. *)
Inductive Callback :=
  | PushCallback (this : nat)
  | DisposeCallback (this : nat) (promise : nat).

Definition cb_this (cb : Callback) : nat :=
  match cb with PushCallback s => s | DisposeCallback s _ => s end.

(** A request handed to the gateway transport. *)
Record Request := {
  req_gateway : string;
  req_method : Method;
  req_params : Parameters;
  req_callback : Callback }.

Inductive PromiseState := Pending | Resolved | Rejected (e : Error).

(** An interval timer: its callback [() => { this._pushStats() }] is
    determined by the captured [this]; [tm_delay] is the delay it was armed
    with. *)
Record Timer := {
  tm_this : nat;
  tm_delay : Z }.

(** The process.  Objects are identified by their allocation index: a
    [MetricsClient] by its position in [heap], a timer by its position in
    [timers], a request by its position in [sent], a promise by its position
    in [promises].  [active] holds the intervals the loop has scheduled
    (created and not cleared), [pending] the requests whose callback the
    transport still holds (sent and not answered). *)
Record World := {
  heap : list MetricsClient;
  timers : list Timer;
  active : gset nat;
  sent : list Request;
  pending : gset nat;
  promises : list PromiseState;
  uncaught_once : list nat;
  _default : option nat;
  logs : list LogEntry;
  default_metrics : list (option (list string) * option Z) }.

Definition init : World := {|
  heap := []; timers := []; active := ∅; sent := []; pending := ∅;
  promises := []; uncaught_once := []; _default := None; logs := [];
  default_metrics := [] |}.

(** What the class takes from its host: [os.hostname()],
    [os.userInfo().username] and [url.parse]. *)
Record Host := {
  os_hostname : string;
  os_username : string;
  url_parse : string → Url }.

Definition with_heap (h : list MetricsClient) (w : World) : World :=
  {| heap := h; timers := timers w; active := active w; sent := sent w;
     pending := pending w; promises := promises w;
     uncaught_once := uncaught_once w; _default := _default w;
     logs := logs w; default_metrics := default_metrics w |}.

Definition with_timers (t : list Timer) (w : World) : World :=
  {| heap := heap w; timers := t; active := active w; sent := sent w;
     pending := pending w; promises := promises w;
     uncaught_once := uncaught_once w; _default := _default w;
     logs := logs w; default_metrics := default_metrics w |}.

Definition with_active (a : gset nat) (w : World) : World :=
  {| heap := heap w; timers := timers w; active := a; sent := sent w;
     pending := pending w; promises := promises w;
     uncaught_once := uncaught_once w; _default := _default w;
     logs := logs w; default_metrics := default_metrics w |}.

Definition with_sent (s : list Request) (w : World) : World :=
  {| heap := heap w; timers := timers w; active := active w; sent := s;
     pending := pending w; promises := promises w;
     uncaught_once := uncaught_once w; _default := _default w;
     logs := logs w; default_metrics := default_metrics w |}.

Definition with_pending (a : gset nat) (w : World) : World :=
  {| heap := heap w; timers := timers w; active := active w; sent := sent w;
     pending := a; promises := promises w;
     uncaught_once := uncaught_once w; _default := _default w;
     logs := logs w; default_metrics := default_metrics w |}.

Definition with_promises (p : list PromiseState) (w : World) : World :=
  {| heap := heap w; timers := timers w; active := active w; sent := sent w;
     pending := pending w; promises := p;
     uncaught_once := uncaught_once w; _default := _default w;
     logs := logs w; default_metrics := default_metrics w |}.

Definition with_uncaught_once (u : list nat) (w : World) : World :=
  {| heap := heap w; timers := timers w; active := active w; sent := sent w;
     pending := pending w; promises := promises w;
     uncaught_once := u; _default := _default w;
     logs := logs w; default_metrics := default_metrics w |}.

Definition with_default (d : option nat) (w : World) : World :=
  {| heap := heap w; timers := timers w; active := active w; sent := sent w;
     pending := pending w; promises := promises w;
     uncaught_once := uncaught_once w; _default := d;
     logs := logs w; default_metrics := default_metrics w |}.

Definition with_logs (l : list LogEntry) (w : World) : World :=
  {| heap := heap w; timers := timers w; active := active w; sent := sent w;
     pending := pending w; promises := promises w;
     uncaught_once := uncaught_once w; _default := _default w;
     logs := l; default_metrics := default_metrics w |}.

Definition with_default_metrics
    (m : list (option (list string) * option Z)) (w : World) : World :=
  {| heap := heap w; timers := timers w; active := active w; sent := sent w;
     pending := pending w; promises := promises w;
     uncaught_once := uncaught_once w; _default := _default w;
     logs := logs w; default_metrics := m |}.

Definition with_interval (h : option nat) (c : MetricsClient) : MetricsClient :=
  {| _url := _url c; _pushInterval := _pushInterval c; _params := _params c;
     _logger := _logger c; _pushgateway := _pushgateway c; _interval := h |}.

(** The interval behind a handle, when the loop still fires it, and the
    request behind an index, when its answer is still to come. *)
Definition armed (w : World) (t : nat) : option Timer :=
  if decide (t ∈ active w) then timers w !! t else None.

Definition in_flight (w : World) (r : nat) : option Request :=
  if decide (r ∈ pending w) then sent w !! r else None.

(** ** Computations of the program

    A JavaScript call either returns, or throws, each with the process
    state it leaves behind.  [Stuck] is the embedding's own: a method run
    on an index that is no allocated object, which no reference of the
    program is. *)
Inductive Outcome (A : Type) :=
  | Ret (a : A) (w : World)
  | Raise (e : Error) (w : World)
  | Stuck.
Arguments Ret {A} a w.
Arguments Raise {A} e w.
Arguments Stuck {A}.

Definition M (A : Type) : Type := World → Outcome A.

Definition ret {A} (a : A) : M A := λ w, Ret a w.

Definition bind {A B} (m : M A) (k : A → M B) : M B :=
  λ w, match m w with
       | Ret a w' => k a w'
       | Raise e w' => Raise e w'
       | Stuck => Stuck
       end.

Declare Scope js_scope.
Delimit Scope js_scope with js.
Notation "x <- m ;; k" := (bind m (λ x, k))
  (at level 100, m at next level, k at level 200, right associativity) : js_scope.
Notation "m ;; k" := (bind m (λ _, k))
  (at level 100, k at level 200, right associativity) : js_scope.
Open Scope js_scope.

Definition world : M World := λ w, Ret w w.
Definition modify (f : World → World) : M unit := λ w, Ret () (f w).

(** Reading the object behind a reference. *)
Definition deref (s : nat) : M MetricsClient :=
  λ w, match heap w !! s with Some c => Ret c w | None => Stuck end.

(** [this._interval = h] *)
Definition assign_interval (s : nat) (h : option nat) : M unit :=
  c <- deref s ;;
  modify (λ w, with_heap (<[s := with_interval h c]> (heap w)) w).

(** *** Collaborators: logger, timers, gateway, promises, process *)

Definition logger_info (name : list string) (msg : string) (meta : Meta) : M unit :=
  modify (λ w, with_logs (logs w ++ [{| log_logger := name; log_level := Info;
                                       log_message := msg; log_meta := meta |}]) w).

Definition logger_error (name : list string) (msg : string) (meta : Meta) : M unit :=
  modify (λ w, with_logs (logs w ++ [{| log_logger := name; log_level := Err;
                                       log_message := msg; log_meta := meta |}]) w).

(** [setInterval(() => { this._pushStats() }, delay)] returns a new timer. *)
Definition setInterval (this : nat) (delay : Z) : M nat :=
  λ w, Ret (length (timers w))
           (with_active ({[length (timers w)]} ∪ active w)
              (with_timers (timers w ++ [{| tm_this := this; tm_delay := delay |}]) w)).

(** [clearInterval(h)]; a [null] or [undefined] handle is ignored. *)
Definition clearInterval (h : option nat) : M unit :=
  modify (λ w, with_active (match h with
                            | Some t => active w ∖ {[t]}
                            | None => active w
                            end) w).

(** [gateway.pushAdd(params, cb)] and [gateway.delete(params, cb)]: the
    request leaves, its callback runs later, when the transport answers. *)
Definition gateway_request (gw : string) (m : Method) (p : Parameters)
    (cb : Callback) : M unit :=
  modify (λ w, with_pending ({[length (sent w)]} ∪ pending w)
                 (with_sent (sent w ++ [{| req_gateway := gw; req_method := m;
                                          req_params := p; req_callback := cb |}]) w)).

(** [new Promise<void>(...)]: a new promise, not settled yet. *)
Definition new_promise : M nat :=
  λ w, Ret (length (promises w)) (with_promises (promises w ++ [Pending]) w).

(** [resolve()] and [reject(error)] settle a promise that is still
    pending and do nothing to a settled one. *)
Definition settle (p : nat) (st : PromiseState) : M unit :=
  modify (λ w, match promises w !! p with
               | Some Pending => with_promises (<[p := st]> (promises w)) w
               | _ => w
               end).

(** [process.once("uncaughtException", () => { this.pause(); this.dispose(); })] *)
Definition process_once_uncaughtException (this : nat) : M unit :=
  modify (λ w, with_uncaught_once (uncaught_once w ++ [this]) w).

(** [defaultMetrics(blacklist, interval)] of the metrics registry. *)
Definition defaultMetrics (blacklist : option (list string)) (interval : option Z) : M unit :=
  modify (λ w, with_default_metrics (default_metrics w ++ [(blacklist, interval)]) w).

(** A template literal prints [null] for a missing component. *)
Definition tmpl (o : option string) : string :=
  match o with Some s => s | None => "null" end.

(** [const logger = createLogger("tweet-lib", "metrics")] *)
Definition logger : list string := ["tweet-lib"; "metrics"].

(** ** The class *)

Module MetricsClient.

(** [public static get default()] *)
Definition default : M (option nat) := λ w, Ret (_default w) w.

(** [public resume()] *)
Definition resume (this : nat) : M unit :=
  c <- deref this ;;
  t <- setInterval this (_pushInterval c) ;;
  assign_interval this (Some t).

(** [public pause()] *)
Definition pause (this : nat) : M unit :=
  c <- deref this ;;
  clearInterval (_interval c) ;;
  assign_interval this None.

(** [private _pushStats()] *)
Definition _pushStats (this : nat) : M unit :=
  c <- deref this ;;
  logger_info (_logger c) "Pushing stats to Pushgateway" (WithParams (_params c)) ;;
  gateway_request (_pushgateway c) PushAdd (_params c) (PushCallback this).

(** The callback of [pushAdd] in [_pushStats]. *)
Definition on_pushed (this : nat) (error : option Error) : M unit :=
  c <- deref this ;;
  match error with
  | Some e =>
      logger_error (_logger c)
        ("An error occured while pushing stats to Pushgateway: " +:+ message e)
        (WithError e (_params c))
  | None =>
      logger_info (_logger c) "Successfully pushed stats to Pushgateway" NoMeta
  end.

(** [public dispose(): Promise<void>]; [new Promise] runs its executor at
    once, so the delete request has left when [dispose] returns. *)
Definition dispose (this : nat) : M nat :=
  pause this ;;
  c <- deref this ;;
  logger_info (_logger c) "Disposing Pushgateway stats" NoMeta ;;
  p <- new_promise ;;
  gateway_request (_pushgateway c) Delete (_params c) (DisposeCallback this p) ;;
  ret p.

(** The callback of [delete] in [dispose]. *)
Definition on_deleted (this : nat) (promise : nat) (error : option Error) : M unit :=
  c <- deref this ;;
  match error with
  | Some e =>
      logger_error (_logger c)
        ("An error occured while disposing Pushgateway stats: " +:+ message e)
        (WithError e (_params c)) ;;
      settle promise (Rejected e)
  | None =>
      logger_info (_logger c) "Successfully disposed Pushgateway stats"
        (WithParams (_params c)) ;;
      settle promise Resolved
  end.

(** The listener registered by the constructor. *)
Definition on_uncaughtException (this : nat) : M unit :=
  pause this ;;
  dispose this ;;
  ret ().

(** [private constructor(_url, _pushInterval, jobName, groupings)] *)
Definition new (url : Url) (pushInterval : Z) (job : string) (labels : Labels) : M nat :=
  this <- (λ w, Ret (length (heap w))
                  (with_heap (heap w ++ [{|
                     _url := url;
                     _pushInterval := pushInterval;
                     _params := {| jobName := job; groupings := labels |};
                     _logger := ["tweet-lib"; "metrics"; "client";
                                 tmpl (host url) +:+ ":" +:+ tmpl (port url)];
                     _pushgateway := href url;
                     _interval := None |}]) w)) ;;
  process_once_uncaughtException this ;;
  _pushStats this ;;
  resume this ;;
  ret this.

(** [public static create(options, labels)] *)
Definition create (env : Host) (options : MetricsOptions) (labels : Labels) : M nat :=
  defaultMetrics (metricsDefaultBlacklist options) (metricsInterval options) ;;
  logger_info logger "Registered default metrics"
    (WithDefaults (metricsDefaultBlacklist options) (metricsInterval options)) ;;
  new (url_parse env (metricsPushgatewayUrl options))
      (metricsPushgatewayPushInterval options)
      (metricsJobName options)
      labels.

(** The local function of [start]; [start] never calls it. *)
Definition getDefaultLabels (env : Host) : Labels :=
  {[ "hostname" := os_hostname env; "username" := os_username env ]}.

(** [public static start(options)] *)
Definition start (env : Host) (options : MetricsOptions) : M unit :=
  w <- world ;;
  match _default w with
  | Some d => dispose d ;; ret ()
  | None => ret ()
  end ;;
  this <- create env options
            {[ "hostname" := os_hostname env; "username" := os_username env ]} ;;
  modify (with_default (Some this)).

End MetricsClient.

Import MetricsClient.

(** ** The event loop

    What can happen to the process, one task at a time: an armed interval
    fires, the transport answers a request in flight, the process emits
    [uncaughtException], or the application calls into the class, on a
    session it holds ([create] returns it, the [default] getter exposes the
    held one) or on the class itself.  Time is left out: an armed interval
    may fire at any point, and [tm_delay] records the delay the loop was
    asked to fire it with. *)
Inductive Event :=
  | Tick (t : nat)
  | Response (r : nat) (error : option Error)
  | UncaughtException
  | CallResume (s : nat)
  | CallPause (s : nat)
  | CallDispose (s : nat)
  | CallStart (options : MetricsOptions)
  | CallCreate (options : MetricsOptions) (labels : Labels).

Fixpoint run_listeners (ls : list nat) : M unit :=
  match ls with
  | [] => ret ()
  | s :: ls' => on_uncaughtException s ;; run_listeners ls'
  end.

(** Emitting [uncaughtException]: the listeners registered with [once] are
    taken off and run in registration order.  With no listener, or when a
    listener throws in turn, the process exits: there is no next state. *)
Definition emit_uncaughtException (w : World) : option World :=
  match uncaught_once w with
  | [] => None
  | ls =>
      match run_listeners ls (with_uncaught_once [] w) with
      | Ret _ w' => Some w'
      | _ => None
      end
  end.

(** One task of the loop: an exception that escapes it is an uncaught
    exception of the process. *)
Definition task {A} (m : M A) (w : World) : option World :=
  match m w with
  | Ret _ w' => Some w'
  | Raise _ w' => emit_uncaughtException w'
  | Stuck => None
  end.

Definition run_callback (cb : Callback) (error : option Error) : M unit :=
  match cb with
  | PushCallback s => on_pushed s error
  | DisposeCallback s p => on_deleted s p error
  end.

(** [step ev w] is [None] when [ev] cannot happen in [w] (the interval is
    not armed, the request not in flight, the session not allocated) or
    ends the process. *)
Definition step (env : Host) (ev : Event) (w : World) : option World :=
  match ev with
  | Tick t =>
      match armed w t with
      | Some tm => task (_pushStats (tm_this tm)) w
      | None => None
      end
  | Response r error =>
      match in_flight w r with
      | Some rq =>
          task (run_callback (req_callback rq) error)
               (with_pending (pending w ∖ {[r]}) w)
      | None => None
      end
  | UncaughtException => emit_uncaughtException w
  | CallResume s => task (resume s) w
  | CallPause s => task (pause s) w
  | CallDispose s => task (dispose s) w
  | CallStart options => task (start env options) w
  | CallCreate options labels => task (create env options labels) w
  end.

Fixpoint run (env : Host) (evs : list Event) (w : World) : option World :=
  match evs with
  | [] => Some w
  | ev :: evs' =>
      match step env ev w with
      | Some w' => run env evs' w'
      | None => None
      end
  end.

(** The push requests a session has issued, oldest first. *)
Definition is_push_of (s : nat) (r : Request) : bool :=
  match req_method r, req_callback r with
  | PushAdd, PushCallback s' => bool_decide (s' = s)
  | _, _ => false
  end.

Definition is_delete_of (s : nat) (r : Request) : bool :=
  match req_method r, req_callback r with
  | Delete, DisposeCallback s' _ => bool_decide (s' = s)
  | _, _ => false
  end.

Definition pushes_of (s : nat) (w : World) : list Request :=
  List.filter (is_push_of s) (sent w).

Definition deletes_of (s : nat) (w : World) : list Request :=
  List.filter (is_delete_of s) (sent w).

(** ** The states the methods leave

    Each method is straight-line code; the state it leaves is written out
    here once and related to the method by the equations below. *)

Definition push_request (s : nat) (c : MetricsClient) : Request :=
  {| req_gateway := _pushgateway c; req_method := PushAdd;
     req_params := _params c; req_callback := PushCallback s |}.

Definition delete_request (s : nat) (c : MetricsClient) (p : nat) : Request :=
  {| req_gateway := _pushgateway c; req_method := Delete;
     req_params := _params c; req_callback := DisposeCallback s p |}.

Definition after_send (rq : Request) (w : World) : World :=
  with_pending ({[length (sent w)]} ∪ pending w) (with_sent (sent w ++ [rq]) w).

Definition after_resume (s : nat) (c : MetricsClient) (w : World) : World :=
  with_heap (<[s := with_interval (Some (length (timers w))) c]> (heap w))
    (with_active ({[length (timers w)]} ∪ active w)
       (with_timers (timers w ++ [{| tm_this := s; tm_delay := _pushInterval c |}]) w)).

Definition after_pause (s : nat) (c : MetricsClient) (w : World) : World :=
  with_heap (<[s := with_interval None c]> (heap w))
    (with_active (match _interval c with
                  | Some t => active w ∖ {[t]}
                  | None => active w
                  end) w).

Definition pushing_entry (c : MetricsClient) : LogEntry :=
  {| log_logger := _logger c; log_level := Info;
     log_message := "Pushing stats to Pushgateway";
     log_meta := WithParams (_params c) |}.

Definition after_pushStats (s : nat) (c : MetricsClient) (w : World) : World :=
  after_send (push_request s c) (with_logs (logs w ++ [pushing_entry c]) w).

Definition disposing_entry (c : MetricsClient) : LogEntry :=
  {| log_logger := _logger c; log_level := Info;
     log_message := "Disposing Pushgateway stats"; log_meta := NoMeta |}.

(** What [dispose] does once [pause] has returned. *)
Definition after_delete (s : nat) (c : MetricsClient) (w : World) : World :=
  after_send (delete_request s c (length (promises w)))
    (with_promises (promises w ++ [Pending])
       (with_logs (logs w ++ [disposing_entry c]) w)).

Definition after_dispose (s : nat) (c : MetricsClient) (w : World) : World :=
  after_delete s (with_interval None c) (after_pause s c w).

Definition push_failed_entry (c : MetricsClient) (e : Error) : LogEntry :=
  {| log_logger := _logger c; log_level := Err;
     log_message := "An error occured while pushing stats to Pushgateway: " +:+ message e;
     log_meta := WithError e (_params c) |}.

Definition pushed_entry (c : MetricsClient) : LogEntry :=
  {| log_logger := _logger c; log_level := Info;
     log_message := "Successfully pushed stats to Pushgateway"; log_meta := NoMeta |}.

Definition dispose_failed_entry (c : MetricsClient) (e : Error) : LogEntry :=
  {| log_logger := _logger c; log_level := Err;
     log_message := "An error occured while disposing Pushgateway stats: " +:+ message e;
     log_meta := WithError e (_params c) |}.

Definition disposed_entry (c : MetricsClient) : LogEntry :=
  {| log_logger := _logger c; log_level := Info;
     log_message := "Successfully disposed Pushgateway stats";
     log_meta := WithParams (_params c) |}.

Definition after_on_pushed (c : MetricsClient) (error : option Error) (w : World) : World :=
  with_logs (logs w ++ [match error with
                        | Some e => push_failed_entry c e
                        | None => pushed_entry c
                        end]) w.

Definition settled (p : nat) (st : PromiseState) (w : World) : World :=
  match promises w !! p with
  | Some Pending => with_promises (<[p := st]> (promises w)) w
  | _ => w
  end.

Definition after_on_deleted (c : MetricsClient) (p : nat) (error : option Error)
    (w : World) : World :=
  match error with
  | Some e => settled p (Rejected e) (with_logs (logs w ++ [dispose_failed_entry c e]) w)
  | None => settled p Resolved (with_logs (logs w ++ [disposed_entry c]) w)
  end.

Definition after_callback (cb : Callback) (c : MetricsClient) (error : option Error)
    (w : World) : World :=
  match cb with
  | PushCallback _ => after_on_pushed c error w
  | DisposeCallback _ p => after_on_deleted c p error w
  end.

(** The object the constructor builds, before [resume] stores the handle. *)
Definition fresh_client (url : Url) (pushInterval : Z) (job : string) (labels : Labels)
    : MetricsClient :=
  {| _url := url;
     _pushInterval := pushInterval;
     _params := {| jobName := job; groupings := labels |};
     _logger := ["tweet-lib"; "metrics"; "client";
                 tmpl (host url) +:+ ":" +:+ tmpl (port url)];
     _pushgateway := href url;
     _interval := None |}.

Definition after_new (url : Url) (pushInterval : Z) (job : string) (labels : Labels)
    (w : World) : World :=
  let s := length (heap w) in
  let c := fresh_client url pushInterval job labels in
  after_resume s c
    (after_pushStats s c
       (with_uncaught_once (uncaught_once w ++ [s])
          (with_heap (heap w ++ [c]) w))).

Definition registered_entry (options : MetricsOptions) : LogEntry :=
  {| log_logger := logger; log_level := Info;
     log_message := "Registered default metrics";
     log_meta := WithDefaults (metricsDefaultBlacklist options) (metricsInterval options) |}.

Definition after_create (env : Host) (options : MetricsOptions) (labels : Labels)
    (w : World) : World :=
  after_new (url_parse env (metricsPushgatewayUrl options))
    (metricsPushgatewayPushInterval options) (metricsJobName options) labels
    (with_logs (logs w ++ [registered_entry options])
       (with_default_metrics
          (default_metrics w ++ [(metricsDefaultBlacklist options, metricsInterval options)]) w)).

(** ** Relations between states

    [evolves]: the sessions that exist keep their configuration and every
    further request carries the identity of the session it belongs to.
    [keeps_idle s]: a session whose handle is empty keeps it empty.
    [keeps_silent s]: a session with an empty handle and no armed interval
    of its own stays so and sends no push. *)

Definition same_config (c c' : MetricsClient) : Prop :=
  _url c' = _url c ∧ _pushInterval c' = _pushInterval c ∧
  _params c' = _params c ∧ _logger c' = _logger c ∧
  _pushgateway c' = _pushgateway c.

Definition evolves (w w' : World) : Prop :=
  (∀ s c, heap w !! s = Some c →
          ∃ c', heap w' !! s = Some c' ∧ same_config c c') ∧
  (∃ new, sent w' = sent w ++ new ∧
          ∀ rq c, rq ∈ new → heap w !! cb_this (req_callback rq) = Some c →
                  req_params rq = _params c ∧ req_gateway rq = _pushgateway c).

Definition idle (s : nat) (w : World) : Prop :=
  ∃ c, heap w !! s = Some c ∧ _interval c = None.

Definition silent (s : nat) (w : World) : Prop :=
  idle s w ∧ ∀ t tm, armed w t = Some tm → tm_this tm ≠ s.

Definition keeps_idle (s : nat) (w w' : World) : Prop :=
  idle s w → idle s w'.

Definition keeps_silent (s : nat) (w w' : World) : Prop :=
  silent s w → silent s w' ∧ pushes_of s w' = pushes_of s w.

(** A session is single-armed when the interval in its handle is the only
    armed interval that pushes for it: [resume] was not called on it
    while it was running. *)
Definition single_armed (s : nat) (w : World) : Prop :=
  ∀ t tm, armed w t = Some tm → tm_this tm = s →
          ∃ c, heap w !! s = Some c ∧ _interval c = Some t.

Definition no_resume (s : nat) (evs : list Event) : Prop :=
  Forall (λ ev, ev ≠ CallResume s) evs.


(** In a process that runs from its start, the handle of a session holds
    an interval that is armed, pushes for that session and has the
    configured delay. *)
Definition handles_armed (w : World) : Prop :=
  ∀ s c t, heap w !! s = Some c → _interval c = Some t →
           armed w t = Some {| tm_this := s; tm_delay := _pushInterval c |}.

Definition keeps_handles (w w' : World) : Prop :=
  handles_armed w → handles_armed w'.

Definition reachable (env : Host) (w : World) : Prop :=
  ∃ evs, run env evs init = Some w.

(** The four operations of a session after construction. *)
Inductive Operation := OpResume | OpPause | OpPush | OpDispose.

Definition perform (op : Operation) (s : nat) : M unit :=
  match op with
  | OpResume => resume s
  | OpPause => pause s
  | OpPush => _pushStats s
  | OpDispose => dispose s ;; ret ()
  end.


(** ** The labels the specification describes *)

(** In the words of the specification: [result] is the default identity
    merged with the identity fields the caller supplied, whichever of the
    two wins on a key they share. *)
Definition merges (defaults supplied result : Labels) : Prop :=
  dom result = dom defaults ∪ dom supplied ∧
  ∀ k v, result !! k = Some v → defaults !! k = Some v ∨ supplied !! k = Some v.

(** ** A scenario

    Push interval 1000 ms, job name [svc], groupings [{instance: "a"}]. *)

Definition env0 : Host :=
  {| os_hostname := "box"; os_username := "joe";
     url_parse := λ s, {| href := s; host := Some "gateway:9091"; port := Some "9091" |} |}.

Definition opts0 : MetricsOptions :=
  {| metricsPushgatewayUrl := "http://gateway:9091";
     metricsPushgatewayPushInterval := 1000;
     metricsDefaultBlacklist := None;
     metricsInterval := None;
     metricsJobName := "svc" |}.

Definition labels0 : Labels := {[ "instance" := "a" ]}.

Definition url0 : Url := url_parse env0 (metricsPushgatewayUrl opts0).

Definition err0 : Error := {| message := "connect ECONNREFUSED" |}.

(** The session [create] returns, and the process on its return. *)
Definition client0 : MetricsClient :=
  with_interval (Some 0) (fresh_client url0 1000 "svc" labels0).

Definition world0 : World := after_create env0 opts0 labels0 init.

(** The process after [start] on a new process. *)
Definition client_started : MetricsClient :=
  with_interval (Some 0) (fresh_client url0 1000 "svc" (getDefaultLabels env0)).

Definition world_started : World :=
  with_default (Some 0) (after_create env0 opts0 (getDefaultLabels env0) init).

(** ** Further notions of the life cycle *)

(** The process after a call of [start], the labels of the new session
    being [labels]. *)
Definition after_start (labels : Labels) (env : Host) (options : MetricsOptions)
    (w : World) : option World :=
  match _default w with
  | Some d =>
      match heap w !! d with
      | Some c =>
          Some (with_default (Some (length (heap w)))
                  (after_create env options labels (after_dispose d c w)))
      | None => None
      end
  | None =>
      Some (with_default (Some (length (heap w))) (after_create env options labels w))
  end.


(** Every armed interval is the one in the handle of the held session. *)
Definition held_only (w : World) : Prop :=
  ∀ t tm, armed w t = Some tm →
          ∃ c, _default w = Some (tm_this tm) ∧
               heap w !! tm_this tm = Some c ∧ _interval c = Some t.

(** The events of an application that goes through [start] only: it
    neither calls [create] nor [resume]. *)
Definition through_start (ev : Event) : Prop :=
  match ev with
  | CallResume _ | CallCreate _ _ => False
  | _ => True
  end.

(** A tick of interval [t], or an answer of the transport. *)
Definition tick_or_answer (t : nat) (ev : Event) : Prop :=
  match ev with
  | Tick t' => t' = t
  | Response _ _ => True
  | _ => False
  end.

Definition is_tick (ev : Event) : bool :=
  match ev with Tick _ => true | _ => false end.

(** Any event but an [uncaughtException]. *)
Definition no_uncaught (ev : Event) : Prop :=
  match ev with UncaughtException => False | _ => True end.

(** Any event but an answer to request [r]. *)
Definition no_answer_to (r : nat) (ev : Event) : Prop :=
  match ev with Response r' _ => r' ≠ r | _ => True end.

(** Promise [p] is pending and belongs to request [r] alone, which is in
    flight with the callback of a [dispose] on session [s]. *)
Definition awaits (p r s : nat) (w : World) : Prop :=
  promises w !! p = Some Pending ∧
  (∃ rq, in_flight w r = Some rq ∧ req_callback rq = DisposeCallback s p) ∧
  ∀ r' rq' s', sent w !! r' = Some rq' →
               req_callback rq' = DisposeCallback s' p → r' = r.

(** The promises the requests refer to exist. *)
Definition promises_allocated (w : World) : Prop :=
  ∀ r rq s p, sent w !! r = Some rq → req_callback rq = DisposeCallback s p →
              p < length (promises w).

(** From [w] to [w'] promises and requests were only added, each new
    [dispose] callback with a promise that is new as well, and nothing was
    answered. *)
Definition grows (w w' : World) : Prop :=
  ∃ n new,
    promises w' = promises w ++ replicate n Pending ∧
    sent w' = sent w ++ new ∧
    pending w ⊆ pending w' ∧
    ∀ rq s p, rq ∈ new → req_callback rq = DisposeCallback s p →
              length (promises w) ≤ p < length (promises w').


(** A second session beside the one of the scenario. *)
Definition client1 : MetricsClient :=
  with_interval (Some 1) (fresh_client url0 1000 "svc" labels0).

Definition world_two : World := after_create env0 opts0 labels0 world0.

(** ** Equations of the methods *)

Section Equations.

Local Ltac js_unfold :=
  unfold resume, pause, _pushStats, on_pushed, on_deleted, dispose,
    on_uncaughtException, new, create, start,
    assign_interval, clearInterval, setInterval, gateway_request, new_promise,
    settle, process_once_uncaughtException, defaultMetrics, logger_info,
    logger_error, deref, modify, world, bind, ret.

Lemma resume_eq s w :
  resume s w = match heap w !! s with
               | Some c => Ret () (after_resume s c w)
               | None => Stuck
               end.
Proof.
  js_unfold. destruct (heap w !! s) as [c|] eqn:E; [|done].
  cbn. rewrite E. done.
Qed.

Lemma pause_eq s w :
  pause s w = match heap w !! s with
              | Some c => Ret () (after_pause s c w)
              | None => Stuck
              end.
Proof.
  js_unfold. destruct (heap w !! s) as [c|] eqn:E; [|done].
  cbn. rewrite E. done.
Qed.

Lemma _pushStats_eq s w :
  _pushStats s w = match heap w !! s with
                   | Some c => Ret () (after_pushStats s c w)
                   | None => Stuck
                   end.
Proof. js_unfold. by destruct (heap w !! s). Qed.

Lemma heap_after_pause s c w :
  heap w !! s = Some c →
  heap (after_pause s c w) !! s = Some (with_interval None c).
Proof.
  intros E. cbn. apply list_lookup_insert_eq. by eapply lookup_lt_Some.
Qed.

Lemma dispose_eq s w :
  dispose s w = match heap w !! s with
                | Some c => Ret (length (promises w)) (after_dispose s c w)
                | None => Stuck
                end.
Proof.
  unfold dispose. unfold bind at 1. rewrite pause_eq.
  destruct (heap w !! s) as [c|] eqn:E; [|done].
  js_unfold. rewrite (heap_after_pause _ _ _ E). done.
Qed.

Lemma on_pushed_eq s error w :
  on_pushed s error w = match heap w !! s with
                        | Some c => Ret () (after_on_pushed c error w)
                        | None => Stuck
                        end.
Proof. js_unfold. destruct (heap w !! s); [|done]. by destruct error. Qed.

Lemma on_deleted_eq s p error w :
  on_deleted s p error w = match heap w !! s with
                           | Some c => Ret () (after_on_deleted c p error w)
                           | None => Stuck
                           end.
Proof. js_unfold. destruct (heap w !! s); [|done]. by destruct error. Qed.

Lemma run_callback_eq cb error w :
  run_callback cb error w = match heap w !! cb_this cb with
                            | Some c => Ret () (after_callback cb c error w)
                            | None => Stuck
                            end.
Proof. destruct cb; cbn; [apply on_pushed_eq | apply on_deleted_eq]. Qed.

Lemma on_uncaughtException_eq s w :
  on_uncaughtException s w =
    match heap w !! s with
    | Some c => Ret () (after_dispose s (with_interval None c) (after_pause s c w))
    | None => Stuck
    end.
Proof.
  unfold on_uncaughtException. unfold bind at 1. rewrite pause_eq.
  destruct (heap w !! s) as [c|] eqn:E; [|done].
  unfold bind. rewrite dispose_eq, (heap_after_pause _ _ _ E). done.
Qed.

Lemma new_eq url iv job labels w :
  new url iv job labels w = Ret (length (heap w)) (after_new url iv job labels w).
Proof.
  unfold new. unfold bind at 1. unfold bind at 1.
  unfold process_once_uncaughtException, modify.
  unfold bind at 1. rewrite _pushStats_eq. cbn [heap with_heap with_uncaught_once].
  rewrite lookup_app_r, Nat.sub_diag by done. cbn [lookup list_lookup].
  unfold bind. rewrite resume_eq. cbn.
  rewrite lookup_app_r, Nat.sub_diag by done. done.
Qed.

Lemma create_eq env options labels w :
  create env options labels w = Ret (length (heap w)) (after_create env options labels w).
Proof.
  unfold create, bind, defaultMetrics, logger_info, modify.
  by rewrite new_eq.
Qed.

Lemma start_eq env options w :
  start env options w =
    let labels : Labels :=
      {[ "hostname" := os_hostname env; "username" := os_username env ]} in
    match _default w with
    | Some d =>
        match heap w !! d with
        | Some c =>
            Ret () (with_default (Some (length (heap w)))
                      (after_create env options labels (after_dispose d c w)))
        | None => Stuck
        end
    | None =>
        Ret () (with_default (Some (length (heap w)))
                  (after_create env options labels w))
    end.
Proof.
  unfold start. unfold bind at 1. unfold world.
  destruct (_default w) as [d|].
  - unfold bind at 1. unfold bind at 1. rewrite dispose_eq.
    destruct (heap w !! d) as [c|]; [|done].
    unfold ret, bind. rewrite create_eq. unfold modify. cbn.
    by rewrite length_insert.
  - unfold bind, ret. rewrite create_eq. done.
Qed.

End Equations.

(** ** Inversion of the event loop *)

Lemma step_inv env ev w w' :
  step env ev w = Some w' →
  match ev with
  | Tick t =>
      ∃ tm c, armed w t = Some tm ∧ heap w !! tm_this tm = Some c ∧
              w' = after_pushStats (tm_this tm) c w
  | Response r error =>
      ∃ rq c, in_flight w r = Some rq ∧
              heap w !! cb_this (req_callback rq) = Some c ∧
              w' = after_callback (req_callback rq) c error
                     (with_pending (pending w ∖ {[r]}) w)
  | UncaughtException =>
      uncaught_once w ≠ [] ∧
      run_listeners (uncaught_once w) (with_uncaught_once [] w) = Ret () w'
  | CallResume s => ∃ c, heap w !! s = Some c ∧ w' = after_resume s c w
  | CallPause s => ∃ c, heap w !! s = Some c ∧ w' = after_pause s c w
  | CallDispose s => ∃ c, heap w !! s = Some c ∧ w' = after_dispose s c w
  | CallStart options =>
      ∃ w0, match _default w with
            | Some d => ∃ c, heap w !! d = Some c ∧ w0 = after_dispose d c w
            | None => w0 = w
            end ∧
            w' = with_default (Some (length (heap w)))
                   (after_create env options (getDefaultLabels env) w0)
  | CallCreate options labels => w' = after_create env options labels w
  end.
Proof.
  destruct ev as [t|r error| |s|s|s|options|options labels]; cbn; unfold task.
  - destruct (armed w t) as [tm|]; [|done]. rewrite _pushStats_eq.
    destruct (heap w !! tm_this tm) as [c|] eqn:E; [|done].
    intros [= <-]. eauto.
  - destruct (in_flight w r) as [rq|]; [|done]. rewrite run_callback_eq.
    cbn [heap with_pending].
    destruct (heap w !! cb_this (req_callback rq)) as [c|] eqn:E; [|done].
    intros [= <-]. eauto.
  - unfold emit_uncaughtException.
    destruct (uncaught_once w) as [|l ls] eqn:E; [done|].
    destruct (run_listeners _ _) as [[] w1|e w1|] eqn:E1; [|done..].
    intros [= <-]. done.
  - rewrite resume_eq. destruct (heap w !! s) as [c|]; [|done].
    intros [= <-]. eauto.
  - rewrite pause_eq. destruct (heap w !! s) as [c|]; [|done].
    intros [= <-]. eauto.
  - rewrite dispose_eq. destruct (heap w !! s) as [c|]; [|done].
    intros [= <-]. eauto.
  - rewrite start_eq. cbn zeta. destruct (_default w) as [d|].
    + destruct (heap w !! d) as [c|]; [|done]. intros [= <-]. eauto.
    + intros [= <-]. eauto.
  - rewrite create_eq. intros [= <-]. done.
Qed.

(** ** Relations every event respects

    A relation between the states before and after that is a preorder,
    ignores the fields the push life cycle does not read, and is respected
    by [pause], by the sending of a delete request and by the constructor,
    is respected by every event, as soon as it is by the [resume] or the
    tick at hand. *)

Section Closure.

Variable R : World → World → Prop.

Hypothesis R_refl : ∀ w, R w w.
Hypothesis R_trans : ∀ w1 w2 w3, R w1 w2 → R w2 w3 → R w1 w3.
Hypothesis R_core : ∀ w w',
  heap w' = heap w → timers w' = timers w → active w' = active w →
  sent w' = sent w → R w w'.
Hypothesis R_pause : ∀ s c w, heap w !! s = Some c → R w (after_pause s c w).
Hypothesis R_delete : ∀ s c p w,
  heap w !! s = Some c → R w (with_sent (sent w ++ [delete_request s c p]) w).
Hypothesis R_new : ∀ url iv job labels w, R w (after_new url iv job labels w).

Lemma R_settled p st w : R w (settled p st w).
Proof. unfold settled. destruct (promises w !! p) as [[]|]; by apply R_core. Qed.

Lemma R_after_callback cb c error w : R w (after_callback cb c error w).
Proof.
  destruct cb as [s|s p]; cbn.
  - by apply R_core.
  - destruct error as [e|]; (eapply R_trans; [|apply R_settled]); by apply R_core.
Qed.

Lemma R_after_delete s c w : heap w !! s = Some c → R w (after_delete s c w).
Proof.
  intros E. unfold after_delete, after_send.
  set (w1 := with_promises _ _).
  eapply R_trans; [apply (R_core w w1); done|].
  eapply R_trans; [apply (R_delete s c (length (promises w)) w1); done|].
  by apply R_core.
Qed.

Lemma R_after_dispose s c w : heap w !! s = Some c → R w (after_dispose s c w).
Proof.
  intros E. eapply R_trans; [by apply R_pause|].
  apply R_after_delete. by apply heap_after_pause.
Qed.

Lemma R_after_create env options labels w : R w (after_create env options labels w).
Proof.
  unfold after_create. eapply R_trans; [|apply R_new]. by apply R_core.
Qed.

Lemma R_run_listeners ls w w' : run_listeners ls w = Ret () w' → R w w'.
Proof.
  revert w. induction ls as [|s ls IH]; intros w; cbn.
  - unfold ret. intros [= <-]. apply R_refl.
  - unfold bind. rewrite on_uncaughtException_eq.
    destruct (heap w !! s) as [c|] eqn:E; [|done]. intros H.
    eapply R_trans; [|by apply IH].
    eapply R_trans; [by apply R_pause|].
    apply R_after_dispose. by apply heap_after_pause.
Qed.

Lemma step_closed env ev w w' :
  step env ev w = Some w' →
  (∀ s c, ev = CallResume s → heap w !! s = Some c → R w (after_resume s c w)) →
  (∀ t tm c, ev = Tick t → armed w t = Some tm → heap w !! tm_this tm = Some c →
             R w (after_pushStats (tm_this tm) c w)) →
  R w w'.
Proof.
  intros H Hresume Hpush. apply step_inv in H.
  destruct ev as [t|r error| |s|s|s|options|options labels].
  - destruct H as (tm & c & Ht & E & ->). by eapply Hpush.
  - destruct H as (rq & c & _ & _ & ->).
    eapply R_trans; [|apply R_after_callback]. by apply R_core.
  - destruct H as [_ H]. eapply R_trans; [|by eapply R_run_listeners].
    by apply R_core.
  - destruct H as (c & E & ->). by eapply Hresume.
  - destruct H as (c & E & ->). by apply R_pause.
  - destruct H as (c & E & ->). by apply R_after_dispose.
  - destruct H as (w0 & H0 & ->).
    set (w1 := after_create _ _ _ w0).
    eapply R_trans; [|apply (R_core w1); done].
    eapply R_trans; [|apply R_after_create].
    destruct (_default w) as [d|].
    + destruct H0 as (c & E & ->). by apply R_after_dispose.
    + subst w0. apply R_refl.
  - subst w'. apply R_after_create.
Qed.

End Closure.

Lemma same_config_refl c : same_config c c.
Proof. by repeat split. Qed.

Lemma same_config_with_interval h c : same_config c (with_interval h c).
Proof. by repeat split. Qed.

Lemma same_config_trans c1 c2 c3 :
  same_config c1 c2 → same_config c2 c3 → same_config c1 c3.
Proof. unfold same_config. intuition congruence. Qed.

Lemma heap_insert_config s h c w s' c' :
  heap w !! s = Some c → heap w !! s' = Some c' →
  ∃ c'', <[s := with_interval h c]> (heap w) !! s' = Some c'' ∧ same_config c' c''.
Proof.
  intros E E'. destruct (decide (s = s')) as [<-|Hne].
  - exists (with_interval h c). split.
    + apply list_lookup_insert_eq. by eapply lookup_lt_Some.
    + replace c' with c by congruence. apply same_config_with_interval.
  - exists c'. split; [|apply same_config_refl].
    by rewrite list_lookup_insert_ne.
Qed.

Section Evolves.

Lemma evolves_refl w : evolves w w.
Proof.
  split.
  - intros s c E. exists c. split; [done|apply same_config_refl].
  - exists []. split; [by rewrite app_nil_r|]. intros rq c H. by apply elem_of_nil in H.
Qed.

Lemma evolves_trans w1 w2 w3 : evolves w1 w2 → evolves w2 w3 → evolves w1 w3.
Proof.
  intros [F1 (n1 & S1 & P1)] [F2 (n2 & S2 & P2)]. split.
  - intros s c E. destruct (F1 s c E) as (c2 & E2 & C2).
    destruct (F2 s c2 E2) as (c3 & E3 & C3).
    exists c3. split; [done|]. by eapply same_config_trans.
  - exists (n1 ++ n2). split; [by rewrite S2, S1, app_assoc|].
    intros rq c Hin E. apply elem_of_app in Hin as [Hin|Hin]; [by apply P1|].
    destruct (F1 _ c E) as (c2 & E2 & (_ & _ & Hp & _ & Hg)).
    destruct (P2 rq c2 Hin E2) as [-> ->]. done.
Qed.

Lemma evolves_core w w' :
  heap w' = heap w → timers w' = timers w → active w' = active w →
  sent w' = sent w → evolves w w'.
Proof.
  intros Hh _ _ Hs. split.
  - intros s c E. exists c. rewrite Hh. split; [done|apply same_config_refl].
  - exists []. split; [by rewrite app_nil_r|]. intros rq c H. by apply elem_of_nil in H.
Qed.

Lemma evolves_heap_insert s h c w w' :
  heap w !! s = Some c →
  heap w' = <[s := with_interval h c]> (heap w) → sent w' = sent w →
  evolves w w'.
Proof.
  intros E Hh Hs. split.
  - intros s' c' E'. rewrite Hh. by eapply heap_insert_config.
  - exists []. split; [by rewrite app_nil_r|]. intros rq c0 H. by apply elem_of_nil in H.
Qed.

Lemma evolves_send s c rq w w' :
  heap w !! s = Some c →
  cb_this (req_callback rq) = s → req_params rq = _params c →
  req_gateway rq = _pushgateway c →
  heap w' = heap w → sent w' = sent w ++ [rq] →
  evolves w w'.
Proof.
  intros E Hs Hp Hg Hh Hsent. split.
  - intros s' c' E'. exists c'. rewrite Hh. split; [done|apply same_config_refl].
  - exists [rq]. split; [done|]. intros rq' c' Hin E'.
    apply list_elem_of_singleton in Hin as ->. rewrite Hs in E'.
    replace c' with c by congruence. done.
Qed.

Lemma evolves_new url iv job labels w : evolves w (after_new url iv job labels w).
Proof.
  split.
  - intros s c E. exists c. split; [|apply same_config_refl]. cbn.
    pose proof (lookup_lt_Some _ _ _ E) as Hlt.
    rewrite list_lookup_insert_ne by lia. by rewrite lookup_app_l.
  - eexists. split; [cbn; reflexivity|]. intros rq c Hin E.
    apply list_elem_of_singleton in Hin as ->. cbn in E.
    apply lookup_lt_Some in E. lia.
Qed.

Lemma step_evolves env ev w w' : step env ev w = Some w' → evolves w w'.
Proof.
  intros H.
  eapply (step_closed evolves);
    [exact evolves_refl|exact evolves_trans|exact evolves_core| | |exact evolves_new
    |exact H| |].
  - intros s c w0 E. by apply (evolves_heap_insert s None c).
  - intros s c p w0 E. by apply (evolves_send s c (delete_request s c p)).
  - intros s c _ E. by apply (evolves_heap_insert s (Some (length (timers w))) c).
  - intros t tm c _ _ E.
    by apply (evolves_send (tm_this tm) c (push_request (tm_this tm) c)).
Qed.

Lemma run_evolves env evs w w' : run env evs w = Some w' → evolves w w'.
Proof.
  revert w. induction evs as [|ev evs IH]; intros w; cbn.
  - intros [= <-]. apply evolves_refl.
  - destruct (step env ev w) as [w1|] eqn:E; [|done]. intros H.
    eapply evolves_trans; [by eapply step_evolves|by apply IH].
Qed.

End Evolves.

Section Idle.

Variable s : nat.

Lemma idle_heap w w' : heap w' !! s = heap w !! s → idle s w → idle s w'.
Proof. intros E (c & Hc & Hi). exists c. by rewrite E. Qed.

Lemma idle_allocated w : idle s w → s < length (heap w).
Proof. intros (c & Hc & _). by eapply lookup_lt_Some. Qed.

Lemma idle_insert s' h c w :
  heap w !! s' = Some c → (s' = s → h = None) →
  idle s w → idle s (with_heap (<[s' := with_interval h c]> (heap w)) w).
Proof.
  intros E Hh Hi. destruct (decide (s' = s)) as [->|Hne].
  - exists (with_interval h c). cbn. split; [|by apply Hh].
    apply list_lookup_insert_eq. by eapply lookup_lt_Some.
  - apply (idle_heap w); [|done]. cbn. by rewrite list_lookup_insert_ne.
Qed.

Lemma heap_after_new url iv job labels w :
  s < length (heap w) →
  heap (after_new url iv job labels w) !! s = heap w !! s.
Proof.
  intros Hlt. cbn. rewrite list_lookup_insert_ne by lia. by rewrite lookup_app_l.
Qed.

Lemma step_keeps_idle env ev w w' :
  ev ≠ CallResume s → step env ev w = Some w' → keeps_idle s w w'.
Proof.
  intros Hev H.
  eapply (step_closed (keeps_idle s)); [| | | | | |exact H| |]; unfold keeps_idle.
  - done.
  - intros w1 w2 w3 H1 H2 Hi. auto.
  - intros w1 w2 Hh _ _ _. apply idle_heap. by rewrite Hh.
  - intros s' c w0 E Hi. apply (idle_heap (with_heap (<[s' := with_interval None c]> (heap w0)) w0));
      [done|]. by apply idle_insert.
  - intros s' c p w0 E. by apply idle_heap.
  - intros url iv job labels w0 Hi. eapply idle_heap; [|done].
    apply heap_after_new. by apply idle_allocated.
  - intros s' c -> E Hi.
    apply (idle_heap (with_heap (<[s' := with_interval (Some (length (timers w))) c]> (heap w)) w));
      [done|]. apply idle_insert; [done| |done]. intros ->. done.
  - intros t tm c _ _ _. by apply idle_heap.
Qed.

Lemma run_keeps_idle env evs w w' :
  no_resume s evs → run env evs w = Some w' → keeps_idle s w w'.
Proof.
  revert w. induction evs as [|ev evs IH]; intros w Hev; cbn.
  - intros [= <-]. by intros Hi.
  - apply Forall_cons in Hev as [Hev Hevs].
    destruct (step env ev w) as [w1|] eqn:E; [|done]. intros H Hi.
    eapply IH; [done..|]. by eapply step_keeps_idle.
Qed.

End Idle.

Lemma armed_inv w w' x t tm :
  timers w' = timers w ++ [x] →
  active w' = {[length (timers w)]} ∪ active w →
  armed w' t = Some tm → armed w t = Some tm ∨ tm = x.
Proof.
  unfold armed. intros -> -> Ht. case_decide as Hin; [|done].
  apply lookup_app_Some in Ht as [Ht|[Hge Ht]].
  - left. rewrite decide_True; [done|].
    apply elem_of_union in Hin as [Hin|Hin]; [|done].
    apply elem_of_singleton in Hin. apply lookup_lt_Some in Ht. lia.
  - right. apply list_lookup_singleton_Some in Ht as [_ ->]. done.
Qed.

Lemma cleared_subseteq (h : option nat) (a : gset nat) :
  match h with Some t => a ∖ {[t]} | None => a end ⊆ a.
Proof. destruct h; [apply subseteq_difference_l|]; done. Qed.

Lemma armed_shrink w w' t tm :
  timers w' = timers w → active w' ⊆ active w →
  armed w' t = Some tm → armed w t = Some tm.
Proof.
  unfold armed. intros -> Hsub. repeat case_decide; try done. set_solver.
Qed.

Section Silent.

Variable s : nat.

Lemma pushes_of_snoc w w' rq :
  sent w' = sent w ++ [rq] →
  pushes_of s w' = pushes_of s w ++ (if is_push_of s rq then [rq] else []).
Proof. unfold pushes_of. intros ->. by rewrite List.filter_app. Qed.

Lemma pushes_of_same w w' : sent w' = sent w → pushes_of s w' = pushes_of s w.
Proof. unfold pushes_of. by intros ->. Qed.

Lemma silent_intro w w' :
  idle s w' →
  (∀ t tm, armed w' t = Some tm → armed w t = Some tm ∨ tm_this tm ≠ s) →
  silent s w → silent s w'.
Proof.
  intros Hi Ha [_ Hs]. split; [done|]. intros t tm H.
  destruct (Ha t tm H) as [H'|H']; [by eapply Hs|done].
Qed.

Lemma step_keeps_silent env ev w w' :
  ev ≠ CallResume s → step env ev w = Some w' → keeps_silent s w w'.
Proof.
  intros Hev H.
  eapply (step_closed (keeps_silent s)); [| | | | | |exact H| |]; unfold keeps_silent.
  - done.
  - intros w1 w2 w3 H1 H2 Hs. destruct (H1 Hs) as [Hs2 E2].
    destruct (H2 Hs2) as [Hs3 E3]. split; [done|congruence].
  - intros w1 w2 Hh Ht Ha Hsent Hs. split; [|by apply pushes_of_same].
    apply (silent_intro w1); [|left|done].
    + eapply idle_heap; [|apply Hs]. by rewrite Hh.
    + eapply armed_shrink; [| |done]; [done|by rewrite Ha].
  - intros s' c w0 E Hs. split; [|by apply pushes_of_same].
    apply (silent_intro w0); [|left|done].
    + apply (idle_heap s (with_heap (<[s' := with_interval None c]> (heap w0)) w0));
        [done|]. apply idle_insert; [done..|apply Hs].
    + eapply armed_shrink; [| |done]; [done|]. apply cleared_subseteq.
  - intros s' c p w0 E Hs. split.
    + apply (silent_intro w0); [by eapply idle_heap; [|apply Hs]|by left|done].
    + rewrite (pushes_of_snoc w0 _ (delete_request s' c p)) by done.
      cbn. by rewrite app_nil_r.
  - intros url iv job labels w0 Hs.
    pose proof (idle_allocated s w0 (proj1 Hs)) as Hlt. split.
    + apply (silent_intro w0); [| |done].
      * eapply idle_heap; [|apply Hs]. by apply heap_after_new.
      * intros t tm Ht. eapply armed_inv in Ht as [Ht| ->]; [by left| |done..].
        right. cbn. lia.
    + rewrite (pushes_of_snoc w0 _
                 (push_request (length (heap w0)) (fresh_client url iv job labels)))
        by done.
      unfold is_push_of. cbn. rewrite bool_decide_eq_false_2 by lia.
      by rewrite app_nil_r.
  - intros s' c -> E Hs. split; [|by apply pushes_of_same].
    apply (silent_intro w); [| |done].
    + apply (idle_heap s (with_heap (<[s' := with_interval (Some (length (timers w))) c]>
                                      (heap w)) w)); [done|].
      apply idle_insert; [done| |apply Hs]. by intros ->.
    + intros t tm Ht. eapply armed_inv in Ht as [Ht| ->]; [by left| |done..].
      right. cbn. by intros ->.
  - intros t tm c _ Ht E Hs. split.
    + apply (silent_intro w); [by eapply idle_heap; [|apply Hs]|by left|done].
    + rewrite (pushes_of_snoc w _ (push_request (tm_this tm) c)) by done.
      unfold is_push_of. cbn.
      rewrite bool_decide_eq_false_2 by (by eapply (proj2 Hs)).
      by rewrite app_nil_r.
Qed.

Lemma run_keeps_silent env evs w w' :
  no_resume s evs → run env evs w = Some w' → keeps_silent s w w'.
Proof.
  revert w. induction evs as [|ev evs IH]; intros w Hev; cbn.
  - intros [= <-]. by intros Hs.
  - apply Forall_cons in Hev as [Hev Hevs].
    destruct (step env ev w) as [w1|] eqn:E; [|done]. intros H Hs.
    destruct (step_keeps_silent env ev w w1 Hev E Hs) as [Hs1 E1].
    destruct (IH w1 Hevs H Hs1) as [Hs' E']. split; [done|congruence].
Qed.

End Silent.

Section Handles.

Lemma armed_grow w w' x t tm :
  timers w' = timers w ++ [x] →
  active w' = {[length (timers w)]} ∪ active w →
  armed w t = Some tm → armed w' t = Some tm.
Proof.
  unfold armed. intros -> -> Ht. case_decide as Hin; [|done].
  rewrite decide_True by (by apply elem_of_union_r).
  by apply lookup_app_l_Some.
Qed.

Lemma armed_fresh w w' x :
  timers w' = timers w ++ [x] →
  active w' = {[length (timers w)]} ∪ active w →
  armed w' (length (timers w)) = Some x.
Proof.
  unfold armed. intros -> ->.
  rewrite decide_True by (by apply elem_of_union_l, elem_of_singleton).
  by rewrite lookup_app_r, Nat.sub_diag.
Qed.

Lemma handles_armed_same w w' :
  heap w' = heap w → timers w' = timers w → active w' = active w →
  handles_armed w → handles_armed w'.
Proof.
  intros Hh Ht Ha H s c t Hs Hi. unfold armed. rewrite Ht, Ha.
  apply H; [by rewrite <- Hh|done].
Qed.

Lemma handles_armed_pause s c w :
  heap w !! s = Some c → handles_armed w → handles_armed (after_pause s c w).
Proof.
  intros Hs H s0 c0 t0 Hs0 Hi0. cbn in Hs0.
  destruct (decide (s = s0)) as [<-|Hne].
  { rewrite list_lookup_insert_eq in Hs0 by (by eapply lookup_lt_Some).
    by injection Hs0 as <-. }
  rewrite list_lookup_insert_ne in Hs0 by done.
  pose proof (H s0 c0 t0 Hs0 Hi0) as Ht0. unfold armed in *. cbn.
  case_decide as Hin; [|done]. rewrite decide_True; [done|].
  destruct (_interval c) as [t|] eqn:Hi; [|done].
  apply elem_of_difference. split; [done|]. rewrite elem_of_singleton. intros ->.
  pose proof (H s c t Hs Hi) as Ht. unfold armed in Ht.
  rewrite decide_True in Ht by done. congruence.
Qed.

Lemma handles_armed_resume s c w :
  heap w !! s = Some c → handles_armed w → handles_armed (after_resume s c w).
Proof.
  intros Hs H s0 c0 t0 Hs0 Hi0. cbn in Hs0.
  destruct (decide (s = s0)) as [<-|Hne].
  - rewrite list_lookup_insert_eq in Hs0 by (by eapply lookup_lt_Some).
    injection Hs0 as <-. cbn in Hi0. injection Hi0 as <-.
    by apply (armed_fresh w).
  - rewrite list_lookup_insert_ne in Hs0 by done.
    eapply (armed_grow w); [done..|]. by apply H.
Qed.

Lemma handles_armed_new url iv job labels w :
  handles_armed w → handles_armed (after_new url iv job labels w).
Proof.
  intros H s0 c0 t0 Hs0 Hi0. cbn in Hs0.
  destruct (decide (length (heap w) = s0)) as [<-|Hne].
  - rewrite list_lookup_insert_eq in Hs0 by (rewrite length_app; cbn; lia).
    injection Hs0 as <-. cbn in Hi0. injection Hi0 as <-.
    by apply (armed_fresh w).
  - rewrite list_lookup_insert_ne in Hs0 by done.
    apply lookup_app_Some in Hs0 as [Hs0|[Hge Hs0]].
    + eapply (armed_grow w); [done..|]. by apply H.
    + apply lookup_lt_Some in Hs0. cbn in Hs0. lia.
Qed.

Lemma step_keeps_handles env ev w w' : step env ev w = Some w' → keeps_handles w w'.
Proof.
  intros Hstep.
  eapply (step_closed keeps_handles); [| | | | | |exact Hstep| |]; unfold keeps_handles.
  - done.
  - auto.
  - intros w1 w2 Hh Ht Ha _. by apply handles_armed_same.
  - intros s c w0. apply handles_armed_pause.
  - intros s c p w0 _. by apply handles_armed_same.
  - intros url iv job labels w0. apply handles_armed_new.
  - intros s c _. apply handles_armed_resume.
  - intros t tm c _ _ _. by apply handles_armed_same.
Qed.

Lemma reachable_handles_armed env w : reachable env w → handles_armed w.
Proof.
  intros [evs Hrun].
  assert (handles_armed init) as Hinit by (by intros s c t Hs).
  revert Hrun Hinit. generalize init.
  induction evs as [|ev evs IH]; intros w0; cbn.
  - by intros [= <-].
  - destruct (step env ev w0) as [w1|] eqn:E; [|done]. intros Hrun H0.
    apply (IH w1 Hrun). by apply (step_keeps_handles env ev w0).
Qed.

End Handles.

(** ** The [uncaughtException] listeners *)

Lemma run_listeners_app ls1 ls2 w :
  run_listeners (ls1 ++ ls2) w = (run_listeners ls1 ;; run_listeners ls2) w.
Proof.
  revert w. induction ls1 as [|l ls1 IH]; intros w; [done|].
  cbn. unfold bind in *. destruct (on_uncaughtException l w); [|done..].
  apply IH.
Qed.

(** What running listeners that are sessions other than [s] leaves of the
    process: they return, [s] is untouched, no interval is armed, nothing
    is registered. *)
Lemma run_listeners_others s ls w :
  Forall (λ l, l < length (heap w) ∧ l ≠ s) ls →
  ∃ w', run_listeners ls w = Ret () w' ∧
        heap w' !! s = heap w !! s ∧ length (heap w') = length (heap w) ∧
        timers w' = timers w ∧ active w' ⊆ active w ∧
        uncaught_once w' = uncaught_once w ∧
        pushes_of s w' = pushes_of s w.
Proof.
  revert w. induction ls as [|l ls IH]; intros w Hls.
  - exists w. by repeat split.
  - apply Forall_cons in Hls as [[Hl Hne] Hls]. cbn. unfold bind.
    rewrite on_uncaughtException_eq.
    destruct (lookup_lt_is_Some_2 _ _ Hl) as [c E]. rewrite E.
    set (w1 := after_dispose l _ _).
    assert (length (heap w1) = length (heap w)) as Hlen
      by (cbn; by rewrite !length_insert).
    destruct (IH w1) as (w' & Hrun & Hh & Hl' & Ht & Ha & Hu & Hp).
    { rewrite Hlen. done. }
    exists w'. split; [done|]. rewrite Hh, Hl', Ht, Hu, Hp. repeat split; try done.
    + cbn. by rewrite !list_lookup_insert_ne.
    + etrans; [done|]. cbn. apply cleared_subseteq.
    + unfold pushes_of. cbn. rewrite !List.filter_app. cbn. by rewrite !app_nil_r.
Qed.

Lemma emit_snoc ls s w :
  uncaught_once w = ls ++ [s] →
  emit_uncaughtException w =
    match run_listeners (ls ++ [s]) (with_uncaught_once [] w) with
    | Ret _ w' => Some w'
    | _ => None
    end.
Proof.
  unfold emit_uncaughtException. intros ->.
  destruct (ls ++ [s]) eqn:E; [|done]. by apply app_nil in E as [_ ?].
Qed.

(** ** Construction *)

(** C4.  The constructor returns, without throwing, the new session [s];
    on return [s] is running on a newly armed interval of the configured
    delay, exactly one push request has been sent and is still in flight,
    and a listener for [s] has been added to the one-shot
    [uncaughtException] listeners.  When the process emits that event (all
    listeners being sessions), the listeners are taken off and [s] ends
    paused and disposed: handle empty, interval disarmed, its delete request
    the last one sent.  A failure of the initial push is logged and
    changes nothing else. *)
Theorem constructor_pushes_once_then_arms env url iv job labels w :
  let s := length (heap w) in
  let r := length (sent w) in
  ∃ w' c t,
    new url iv job labels w = Ret s w' ∧
    heap w' !! s = Some c ∧ c = with_interval (Some t) (fresh_client url iv job labels) ∧
    running c = true ∧
    armed w' t = Some {| tm_this := s; tm_delay := iv |} ∧
    sent w' = sent w ++ [push_request s c] ∧
    in_flight w' r = Some (push_request s c) ∧
    uncaught_once w' = uncaught_once w ++ [s] ∧
    (Forall (λ l, l < length (heap w)) (uncaught_once w) →
     ∃ w'' c'' p,
       step env UncaughtException w' = Some w'' ∧
       uncaught_once w'' = [] ∧
       heap w'' !! s = Some c'' ∧ running c'' = false ∧
       armed w'' t = None ∧
       last (sent w'') = Some (delete_request s c p)) ∧
    (∀ e, ∃ w'',
       step env (Response r (Some e)) w' = Some w'' ∧
       logs w'' = logs w' ++ [push_failed_entry c e] ∧
       heap w'' = heap w' ∧ timers w'' = timers w' ∧ active w'' = active w' ∧
       sent w'' = sent w' ∧ promises w'' = promises w' ∧
       uncaught_once w'' = uncaught_once w').
Proof.
  intros s r.
  exists (after_new url iv job labels w),
    (with_interval (Some (length (timers w))) (fresh_client url iv job labels)),
    (length (timers w)).
  assert (heap (after_new url iv job labels w) !! s =
          Some (with_interval (Some (length (timers w)))
                  (fresh_client url iv job labels))) as Hs.
  { cbn. rewrite list_lookup_insert_eq by (rewrite length_app; cbn; lia). done. }
  split; [apply new_eq|]. split; [done|]. split; [done|]. split; [done|].
  split.
  { unfold armed. cbn. rewrite decide_True by set_solver.
    by rewrite lookup_app_r, Nat.sub_diag. }
  split; [done|]. split.
  { unfold in_flight. cbn. rewrite decide_True by set_solver.
    by rewrite lookup_app_r, Nat.sub_diag. }
  split; [done|]. split.
  - intros Hls. cbn [step]. rewrite (emit_snoc (uncaught_once w) s) by done.
    set (w1 := with_uncaught_once [] _).
    rewrite run_listeners_app. unfold bind.
    destruct (run_listeners_others s (uncaught_once w) w1)
      as (w2 & Hrun & Hh & Hlen & Ht & Ha & Hu & _).
    { eapply Forall_impl; [done|]. cbn. rewrite length_insert, length_app. cbn.
      intros l Hl. unfold s. lia. }
    rewrite Hrun. cbn [run_listeners]. unfold bind.
    rewrite on_uncaughtException_eq, Hh.
    change (heap w1) with (heap (after_new url iv job labels w)). rewrite Hs.
    eexists _, _, _. split; [reflexivity|]. split; [done|]. split.
    { cbn. rewrite list_lookup_insert_eq; [done|].
      rewrite length_insert, Hlen. cbn. rewrite length_insert, length_app. cbn.
      unfold s. lia. }
    split; [done|]. split.
    { unfold armed. cbn. rewrite decide_False; [done|].
      intros [_ Hn]%elem_of_difference. apply Hn. by apply elem_of_singleton. }
    cbn. rewrite last_snoc. reflexivity.
  - intros e. cbn [step].
    assert (in_flight (after_new url iv job labels w) r =
            Some (push_request s (with_interval (Some (length (timers w)))
                                    (fresh_client url iv job labels)))) as ->.
    { unfold in_flight. cbn. rewrite decide_True by set_solver.
      by rewrite lookup_app_r, Nat.sub_diag. }
    unfold task. rewrite run_callback_eq.
    cbn [heap with_pending push_request req_callback cb_this]. rewrite Hs.
    eexists. split; [reflexivity|]. by repeat split.
Qed.

(** ** Push failures *)

Lemma in_flight_after_send rq w :
  in_flight (after_send rq w) (length (sent w)) = Some rq.
Proof.
  unfold in_flight. cbn. rewrite decide_True by set_solver.
  by rewrite lookup_app_r, Nat.sub_diag.
Qed.

(** C3.  In a process that runs from its start, a session [s] is running
    and one of its push requests, [r], is in flight.  When the transport
    answers [r] with an error, the callback returns without throwing and
    the only trace is one error entry in the log, carrying the error and
    the identity: sessions, intervals, promises, listeners and requests are
    what they were.  The interval of the session is still armed; its next
    tick runs [_pushStats], which returns without throwing and sends one
    more push request under the same identity. *)
Theorem push_failure_is_only_logged env s c t r rq e w :
  reachable env w →
  heap w !! s = Some c →
  _interval c = Some t →
  in_flight w r = Some rq → req_callback rq = PushCallback s →
  ∃ w' w'',
    on_pushed s (Some e) (with_pending (pending w ∖ {[r]}) w) = Ret () w' ∧
    step env (Response r (Some e)) w = Some w' ∧
    logs w' = logs w ++ [push_failed_entry c e] ∧
    log_meta (push_failed_entry c e) = WithError e (_params c) ∧
    heap w' = heap w ∧ timers w' = timers w ∧ active w' = active w ∧
    sent w' = sent w ∧ promises w' = promises w ∧
    uncaught_once w' = uncaught_once w ∧ _default w' = _default w ∧
    armed w' t = Some {| tm_this := s; tm_delay := _pushInterval c |} ∧
    _pushStats s w' = Ret () w'' ∧
    step env (Tick t) w' = Some w'' ∧
    sent w'' = sent w' ++ [push_request s c] ∧
    in_flight w'' (length (sent w')) = Some (push_request s c) ∧
    armed w'' t = Some {| tm_this := s; tm_delay := _pushInterval c |}.
Proof.
  intros Hreach Hs Hi Hr Hcb.
  pose proof (reachable_handles_armed env w Hreach s c t Hs Hi) as Ht.
  set (w' := after_on_pushed c (Some e) (with_pending (pending w ∖ {[r]}) w)).
  exists w', (after_pushStats s c w').
  assert (on_pushed s (Some e) (with_pending (pending w ∖ {[r]}) w) = Ret () w') as Hp.
  { rewrite on_pushed_eq. cbn [heap with_pending]. by rewrite Hs. }
  assert (armed w' t = Some {| tm_this := s; tm_delay := _pushInterval c |}) as Ht'
    by exact Ht.
  assert (_pushStats s w' = Ret () (after_pushStats s c w')) as Hpush.
  { rewrite _pushStats_eq. change (heap w') with (heap w). by rewrite Hs. }
  split; [done|]. split.
  { cbn [step]. rewrite Hr. unfold task. rewrite Hcb. cbn [run_callback].
    by rewrite Hp. }
  do 10 (split; [done|]). split; [done|]. split.
  { cbn [step]. rewrite Ht'. unfold task. cbn [tm_this]. by rewrite Hpush. }
  split; [done|]. split; [|done].
  apply (in_flight_after_send (push_request s c) (with_logs (logs w' ++ [pushing_entry c]) w')).
Qed.

(** ** Double arming *)

(** C7.  In a process that runs from its start, [resume] on a session
    that is running, on interval [t], returns without error and arms a
    second interval [t'], of the configured delay and for the same session,
    next to [t], which stays armed; the handle now holds [t'].  From then
    on a tick of either interval sends a push request of the session, and
    leaves both armed. *)
Theorem resume_while_running_arms_a_second_interval env s c t w :
  reachable env w →
  heap w !! s = Some c →
  _interval c = Some t →
  ∃ w' t',
    resume s w = Ret () w' ∧
    t' ≠ t ∧ armed w t' = None ∧
    armed w t = Some {| tm_this := s; tm_delay := _pushInterval c |} ∧
    heap w' !! s = Some (with_interval (Some t') c) ∧
    armed w' t = Some {| tm_this := s; tm_delay := _pushInterval c |} ∧
    armed w' t' = Some {| tm_this := s; tm_delay := _pushInterval c |} ∧
    ∀ u, u = t ∨ u = t' →
      ∃ w'', step env (Tick u) w' = Some w'' ∧
             sent w'' = sent w' ++ [push_request s c] ∧
             armed w'' t = Some {| tm_this := s; tm_delay := _pushInterval c |} ∧
             armed w'' t' = Some {| tm_this := s; tm_delay := _pushInterval c |}.
Proof.
  intros Hreach Hs Hi.
  pose proof (reachable_handles_armed env w Hreach s c t Hs Hi) as Ht.
  assert (t < length (timers w)) as Hlt.
  { unfold armed in Ht. case_decide; [|done]. by eapply lookup_lt_Some. }
  exists (after_resume s c w), (length (timers w)).
  assert (heap (after_resume s c w) !! s =
          Some (with_interval (Some (length (timers w))) c)) as Hs'.
  { cbn. apply list_lookup_insert_eq. by eapply lookup_lt_Some. }
  assert (armed (after_resume s c w) t =
          Some {| tm_this := s; tm_delay := _pushInterval c |}) as Ht1
    by (by apply (armed_grow w _ {| tm_this := s; tm_delay := _pushInterval c |})).
  assert (armed (after_resume s c w) (length (timers w)) =
          Some {| tm_this := s; tm_delay := _pushInterval c |}) as Ht2
    by (by apply (armed_fresh w)).
  split; [by rewrite resume_eq, Hs|]. split; [lia|]. split.
  { unfold armed. case_decide; [|done]. by apply lookup_ge_None. }
  split; [done|]. split; [done|]. split; [done|]. split; [done|].
  intros u Hu. exists (after_pushStats s (with_interval (Some (length (timers w))) c)
                         (after_resume s c w)).
  split; [|done]. cbn [step].
  assert (armed (after_resume s c w) u =
          Some {| tm_this := s; tm_delay := _pushInterval c |}) as ->
    by (by destruct Hu as [-> | ->]).
  unfold task. cbn [tm_this]. by rewrite _pushStats_eq, Hs'.
Qed.

(** ** The singleton *)

(** C5.  [start] with a session [d] held returns with the new session [n],
    different from [d], in the slot.  [d] has been disposed of: its handle
    is empty, and its delete request went out before the first push of [n].
    Nothing waited for the answer: on return the delete request is still
    in flight and its promise pending, while [n] is already running. *)
Theorem start_replaces_the_held_session env options d c w :
  _default w = Some d →
  heap w !! d = Some c →
  ∃ w' n cn p,
    start env options w = Ret () w' ∧
    n = length (heap w) ∧ n ≠ d ∧
    _default w' = Some n ∧
    heap w' !! n = Some cn ∧ running cn = true ∧
    heap w' !! d = Some (with_interval None c) ∧
    sent w' = sent w ++ [delete_request d c p; push_request n cn] ∧
    in_flight w' (length (sent w)) = Some (delete_request d c p) ∧
    promises w' !! p = Some Pending.
Proof.
  intros Hd Hc. pose proof (lookup_lt_Some _ _ _ Hc) as Hlt.
  eexists _, (length (heap w)), _, (length (promises w)).
  split; [by rewrite start_eq, Hd, Hc|].
  split; [done|]. split; [lia|]. split; [done|]. split.
  { cbn. rewrite !length_insert.
    rewrite list_lookup_insert_eq by (rewrite length_app, length_insert; cbn; lia).
    done. }
  split; [done|]. split.
  { cbn. rewrite !length_insert. rewrite list_lookup_insert_ne by lia.
    rewrite lookup_app_l by (by rewrite length_insert).
    by rewrite list_lookup_insert_eq. }
  split; [cbn; rewrite !length_insert; by rewrite <- app_assoc|]. split.
  { unfold in_flight. cbn. rewrite decide_True by set_solver.
    rewrite lookup_app_l by (rewrite length_app; cbn; lia).
    by rewrite lookup_app_r, Nat.sub_diag. }
  cbn. by rewrite lookup_app_r, Nat.sub_diag.
Qed.

(** ** Repeated disposal *)

Lemma deletes_of_snoc s w w' rq :
  sent w' = sent w ++ [rq] →
  deletes_of s w' = deletes_of s w ++ (if is_delete_of s rq then [rq] else []).
Proof. unfold deletes_of. intros ->. by rewrite List.filter_app. Qed.

(** Every listener that runs sends the delete request of its session. *)
Lemma run_listeners_deletes s ls w :
  Forall (λ l, l < length (heap w)) ls →
  ∃ w', run_listeners ls w = Ret () w' ∧
        length (deletes_of s w') =
          length (deletes_of s w) + length (List.filter (λ l, bool_decide (l = s)) ls).
Proof.
  revert w. induction ls as [|l ls IH]; intros w Hls.
  - exists w. split; [done|]. cbn. lia.
  - apply Forall_cons in Hls as [Hl Hls]. cbn [run_listeners]. unfold bind.
    rewrite on_uncaughtException_eq.
    destruct (lookup_lt_is_Some_2 _ _ Hl) as [c E]. rewrite E.
    set (w1 := after_dispose l _ _).
    assert (length (heap w1) = length (heap w)) as Hlen
      by (cbn; by rewrite !length_insert).
    destruct (IH w1) as (w' & Hrun & Hd); [by rewrite Hlen|].
    exists w'. split; [done|]. rewrite Hd.
    rewrite (deletes_of_snoc s (after_pause l c w) w1
               (delete_request l (with_interval None (with_interval None c))
                  (length (promises w)))) by done.
    rewrite length_app. unfold is_delete_of. cbn.
    change (deletes_of s (after_pause l c w)) with (deletes_of s w).
    unfold deletes_of. destruct (bool_decide (l = s)); cbn; lia.
Qed.

Lemma in_flight_after_other_answer w w' r r' rq :
  sent w' = sent w → pending w' = pending w ∖ {[r']} → r ≠ r' →
  in_flight w r = Some rq → in_flight w' r = Some rq.
Proof.
  unfold in_flight. intros -> -> Hne H. case_decide as Hin; [|done].
  rewrite decide_True; [done|]. apply elem_of_difference. split; [done|].
  by rewrite elem_of_singleton.
Qed.

(** C10.  [dispose] has no guard of its own.  Called twice, it returns
    twice, with two distinct promises, and sends two delete requests under
    the same identity, both in flight, both promises pending; the two
    promises settle independently, each by the answer to its own request.
    Likewise the [uncaughtException] listener of a session that has been
    disposed of explicitly sends a further delete request for it. *)
Theorem dispose_is_not_guarded env s c w :
  heap w !! s = Some c →
  ∃ p1 w1 p2 w2,
    let r1 := length (sent w) in
    let r2 := S (length (sent w)) in
    dispose s w = Ret p1 w1 ∧ dispose s w1 = Ret p2 w2 ∧
    p1 ≠ p2 ∧
    sent w2 = sent w ++ [delete_request s c p1; delete_request s c p2] ∧
    in_flight w2 r1 = Some (delete_request s c p1) ∧
    in_flight w2 r2 = Some (delete_request s c p2) ∧
    promises w2 !! p1 = Some Pending ∧ promises w2 !! p2 = Some Pending ∧
    (∀ e, ∃ w3 w4,
       step env (Response r1 (Some e)) w2 = Some w3 ∧
       promises w3 !! p1 = Some (Rejected e) ∧ promises w3 !! p2 = Some Pending ∧
       step env (Response r2 None) w3 = Some w4 ∧
       promises w4 !! p1 = Some (Rejected e) ∧ promises w4 !! p2 = Some Resolved) ∧
    (s ∈ uncaught_once w →
     Forall (λ l, l < length (heap w)) (uncaught_once w) →
     ∃ w3, step env UncaughtException w1 = Some w3 ∧
           length (deletes_of s w1) < length (deletes_of s w3)).
Proof.
  intros Hs. pose proof (lookup_lt_Some _ _ _ Hs) as Hlt.
  set (w1 := after_dispose s c w).
  assert (heap w1 !! s = Some (with_interval None c)) as Hs1.
  { cbn. by apply list_lookup_insert_eq. }
  set (w2 := after_dispose s (with_interval None c) w1).
  assert (heap w2 !! s = Some (with_interval None c)) as Hs2.
  { cbn. rewrite list_lookup_insert_eq by (by rewrite length_insert). done. }
  exists (length (promises w)), w1, (S (length (promises w))), w2. cbn zeta.
  split; [by rewrite dispose_eq, Hs|]. split.
  { rewrite dispose_eq, Hs1. cbn. rewrite length_app. cbn.
    by rewrite Nat.add_1_r. }
  split; [lia|]. split.
  { cbn. rewrite <- app_assoc, length_app. cbn. by rewrite Nat.add_1_r. }
  assert (in_flight w2 (length (sent w)) =
          Some (delete_request s c (length (promises w)))) as Hr1.
  { unfold in_flight. cbn. rewrite decide_True by set_solver.
    rewrite lookup_app_l by (rewrite length_app; cbn; lia).
    by rewrite lookup_app_r, Nat.sub_diag. }
  assert (in_flight w2 (S (length (sent w))) =
          Some (delete_request s c (S (length (promises w))))) as Hr2.
  { unfold in_flight. cbn. rewrite length_app. cbn.
    replace (length (sent w) + 1) with (S (length (sent w))) by lia.
    rewrite decide_True by set_solver.
    rewrite lookup_app_r by (rewrite length_app; cbn; lia).
    rewrite !length_app. cbn [length].
    replace (S (length (sent w)) - (length (sent w) + 1)) with 0 by lia.
    by rewrite Nat.add_1_r. }
  assert (promises w2 = promises w ++ [Pending; Pending]) as Hp
    by (cbn; by rewrite <- app_assoc).
  split; [done|]. split; [done|]. split.
  { rewrite Hp. by rewrite lookup_app_r, Nat.sub_diag. }
  split.
  { rewrite Hp. rewrite lookup_app_r by lia.
    by replace (S (length (promises w)) - length (promises w)) with 1 by lia. }
  split.
  - intros e.
    set (w3 := after_on_deleted (with_interval None c) (length (promises w)) (Some e)
                 (with_pending (pending w2 ∖ {[length (sent w)]}) w2)).
    assert (promises w3 = promises w ++ [Rejected e; Pending]) as Hp3.
    { unfold w3, after_on_deleted, settled. cbn [promises with_logs with_pending].
      rewrite Hp. rewrite lookup_app_r, Nat.sub_diag by done. cbn.
      rewrite (insert_app_r_alt _ _ (length (promises w))) by done.
      by rewrite Nat.sub_diag. }
    assert (heap w3 = heap w2) as Hh3.
    { unfold w3, after_on_deleted, settled. cbn [promises with_logs with_pending].
      rewrite Hp. rewrite lookup_app_r, Nat.sub_diag by done. done. }
    assert (sent w3 = sent w2 ∧ pending w3 = pending w2 ∖ {[length (sent w)]})
      as [Hsent3 Hpend3].
    { unfold w3, after_on_deleted, settled. cbn [promises with_logs with_pending].
      rewrite Hp. rewrite lookup_app_r, Nat.sub_diag by done. done. }
    set (w4 := after_on_deleted (with_interval None c) (S (length (promises w))) None
                 (with_pending (pending w3 ∖ {[S (length (sent w))]}) w3)).
    exists w3, w4. split.
    { cbn [step]. rewrite Hr1. unfold task. rewrite run_callback_eq.
      cbn [heap with_pending cb_this req_callback delete_request]. by rewrite Hs2. }
    split; [rewrite Hp3; by rewrite lookup_app_r, Nat.sub_diag|]. split.
    { rewrite Hp3. rewrite lookup_app_r by lia.
      by replace (S (length (promises w)) - length (promises w)) with 1 by lia. }
    assert (in_flight w3 (S (length (sent w))) =
            Some (delete_request s c (S (length (promises w))))) as Hr2'.
    { apply (in_flight_after_other_answer w2 w3 _ (length (sent w)));
        [done|done|lia|done]. }
    assert (promises w4 = promises w ++ [Rejected e; Resolved]) as Hp4.
    { unfold w4, after_on_deleted, settled. cbn [promises with_logs with_pending].
      rewrite Hp3. rewrite lookup_app_r by lia.
      replace (S (length (promises w)) - length (promises w)) with 1 by lia. cbn.
      rewrite (insert_app_r_alt _ _ (S (length (promises w)))) by lia.
      by replace (S (length (promises w)) - length (promises w)) with 1 by lia. }
    split.
    { cbn [step]. rewrite Hr2'. unfold task. rewrite run_callback_eq.
      cbn [heap with_pending cb_this req_callback delete_request].
      by rewrite Hh3, Hs2. }
    split; [rewrite Hp4; by rewrite lookup_app_r, Nat.sub_diag|].
    rewrite Hp4. rewrite lookup_app_r by lia.
    by replace (S (length (promises w)) - length (promises w)) with 1 by lia.
  - intros Hin Hls. cbn [step]. unfold emit_uncaughtException.
    change (uncaught_once w1) with (uncaught_once w).
    destruct (uncaught_once w) as [|l ls] eqn:Els; [by apply elem_of_nil in Hin|].
    destruct (run_listeners_deletes s (l :: ls) (with_uncaught_once [] w1))
      as (w3 & Hrun & Hlen).
    { cbn. by rewrite length_insert. }
    rewrite Hrun. exists w3. split; [done|]. rewrite Hlen.
    change (deletes_of s (with_uncaught_once [] w1)) with (deletes_of s w1).
    assert (0 < length (List.filter (λ l0, bool_decide (l0 = s)) (l :: ls))); [|lia].
    apply list_elem_of_In in Hin.
    assert (In s (List.filter (λ l0, bool_decide (l0 = s)) (l :: ls))) as Hf.
    { apply List.filter_In. split; [done|]. by apply bool_decide_eq_true. }
    destruct (List.filter _ _); [done|cbn; lia].
Qed.

(** ** What an operation may change *)

Lemma same_config_with c c' : same_config c c' → c' = with_interval (_interval c') c.
Proof.
  destruct c, c'. unfold same_config, with_interval. cbn.
  intros (-> & -> & -> & -> & ->). done.
Qed.

Lemma evolves_after_dispose s c w : heap w !! s = Some c → evolves w (after_dispose s c w).
Proof.
  apply (R_after_dispose evolves evolves_trans evolves_core).
  - intros s' c' w' E. by apply (evolves_heap_insert s' None c').
  - intros s' c' p w' E. by apply (evolves_send s' c' (delete_request s' c' p)).
Qed.

(** C9.  Whatever operation ([resume], [pause], the push, [dispose]) is
    performed on whatever session [s'], it returns, and a session [s]
    with state [c] before has state [c] with some handle after: address,
    interval length, identity, logger and gateway client are those of [c].
    The same holds across every event of the loop. *)
Theorem only_the_handle_changes env s c w :
  heap w !! s = Some c →
  (∀ op s', is_Some (heap w !! s') →
     ∃ w' h, perform op s' w = Ret () w' ∧
             heap w' !! s = Some (with_interval h c)) ∧
  (∀ ev w', step env ev w = Some w' →
     ∃ h, heap w' !! s = Some (with_interval h c)).
Proof.
  intros Hs. split.
  - intros op s' [c' Hs'].
    assert (∀ w', evolves w w' → ∃ h, heap w' !! s = Some (with_interval h c)) as Hev.
    { intros w' [Hf _]. destruct (Hf s c Hs) as (c2 & E2 & Hc).
      exists (_interval c2). by rewrite <- (same_config_with c c2). }
    destruct op; cbn [perform].
    + exists (after_resume s' c' w).
      destruct (Hev (after_resume s' c' w)) as [h Hh].
      { by apply (evolves_heap_insert s' (Some (length (timers w))) c'). }
      exists h. by rewrite resume_eq, Hs'.
    + exists (after_pause s' c' w).
      destruct (Hev (after_pause s' c' w)) as [h Hh].
      { by apply (evolves_heap_insert s' None c'). }
      exists h. by rewrite pause_eq, Hs'.
    + exists (after_pushStats s' c' w).
      destruct (Hev (after_pushStats s' c' w)) as [h Hh].
      { by apply (evolves_send s' c' (push_request s' c')). }
      exists h. by rewrite _pushStats_eq, Hs'.
    + exists (after_dispose s' c' w).
      destruct (Hev (after_dispose s' c' w)) as [h Hh].
      { by apply evolves_after_dispose. }
      exists h. unfold bind. by rewrite dispose_eq, Hs'.
  - intros ev w' Hstep. apply step_evolves in Hstep as [Hf _].
    destruct (Hf s c Hs) as (c2 & E2 & Hc).
    exists (_interval c2). by rewrite <- (same_config_with c c2).
Qed.

(** ** One identity for every push and for the delete *)

(** C2.  The constructor, given job name and groupings, returns the new
    session [s] with the initial push sent under exactly that identity.
    After any events, every request sent since the constructor was entered
    on behalf of [s] (a push or a delete: the requests whose callback
    closes over [s]) carries that identity, and so does the delete request
    that [dispose] then sends. *)
Theorem one_identity_for_pushes_and_delete env url iv job labels w evs w2 :
  let s := length (heap w) in
  let identity := {| jobName := job; groupings := labels |} in
  ∃ w1,
    new url iv job labels w = Ret s w1 ∧
    sent w1 = sent w ++ [{| req_gateway := href url; req_method := PushAdd;
                            req_params := identity;
                            req_callback := PushCallback s |}] ∧
    (run env evs w1 = Some w2 →
     (∀ rq, rq ∈ drop (length (sent w)) (sent w2) →
            cb_this (req_callback rq) = s → req_params rq = identity) ∧
     ∃ p w3,
       dispose s w2 = Ret p w3 ∧
       sent w3 = sent w2 ++ [{| req_gateway := href url; req_method := Delete;
                                req_params := identity;
                                req_callback := DisposeCallback s p |}]).
Proof.
  intros s identity. exists (after_new url iv job labels w).
  split; [apply new_eq|]. split; [done|].
  intros Hrun. apply run_evolves in Hrun as [Hf (new2 & Hsent & Hnew)].
  set (c1 := with_interval (Some (length (timers w))) (fresh_client url iv job labels)).
  assert (heap (after_new url iv job labels w) !! s = Some c1) as Hs.
  { cbn. rewrite list_lookup_insert_eq by (rewrite length_app; cbn; lia). done. }
  destruct (Hf s c1 Hs) as (c2 & Hs2 & (_ & _ & Hp & _ & Hg)). split.
  - intros rq Hin Hcb. rewrite Hsent in Hin.
    change (sent (after_new url iv job labels w))
      with (sent w ++ [push_request s c1]) in Hin.
    rewrite <- app_assoc, drop_app_length in Hin.
    apply elem_of_cons in Hin as [->|Hin]; [done|].
    rewrite <- Hcb in Hs. by destruct (Hnew rq c1 Hin Hs) as [-> _].
  - exists (length (promises w2)), (after_dispose s c2 w2).
    split; [by rewrite dispose_eq, Hs2|]. cbn.
    unfold delete_request. cbn. by rewrite Hp, Hg.
Qed.

(** ** After [dispose] *)

Lemma promises_settled p st w :
  promises w !! p = Some Pending → promises (settled p st w) !! p = Some st.
Proof.
  unfold settled. intros H. rewrite H. cbn.
  apply list_lookup_insert_eq. by eapply lookup_lt_Some.
Qed.

Lemma idle_after_dispose s c w : heap w !! s = Some c → idle s (after_dispose s c w).
Proof.
  intros Hs. exists (with_interval None c). split; [|done]. cbn.
  rewrite list_lookup_insert_eq; [done|]. by eapply lookup_lt_Some.
Qed.

Lemma silent_after_dispose s c w :
  heap w !! s = Some c → single_armed s w → silent s (after_dispose s c w).
Proof.
  intros Hs Hsingle. split; [by apply idle_after_dispose|].
  intros t tm Ht Hthis. unfold armed in Ht. cbn in Ht.
  case_decide as Hin; [|done].
  destruct (Hsingle t tm) as (c' & Hs' & Hi); [|done|].
  - unfold armed. rewrite decide_True; [done|].
    by eapply cleared_subseteq.
  - replace c' with c in Hi by congruence. rewrite Hi in Hin.
    apply elem_of_difference in Hin as [_ Hn]. apply Hn. by apply elem_of_singleton.
Qed.

(** C6, as the code has it.  [dispose] returns and leaves the session not
    running, and no event other than a call of [resume] on it makes it
    running again.  But the class keeps no record of the disposal: [resume]
    on the disposed session returns, arms a new interval of the configured
    delay and stores it in the handle, so that the session is running again
    and the next tick sends a push. *)
Theorem dispose_stops_the_session_until_resume env s c w :
  heap w !! s = Some c →
  ∃ p w1,
    dispose s w = Ret p w1 ∧
    heap w1 !! s = Some (with_interval None c) ∧
    running (with_interval None c) = false ∧
    (∀ evs w2, no_resume s evs → run env evs w1 = Some w2 →
               ∃ c2, heap w2 !! s = Some c2 ∧ running c2 = false) ∧
    (∃ w3 t w4,
       resume s w1 = Ret () w3 ∧
       heap w3 !! s = Some (with_interval (Some t) c) ∧
       running (with_interval (Some t) c) = true ∧
       armed w3 t = Some {| tm_this := s; tm_delay := _pushInterval c |} ∧
       step env (Tick t) w3 = Some w4 ∧
       pushes_of s w4 = pushes_of s w3 ++ [push_request s c]).
Proof.
  intros Hs. pose proof (lookup_lt_Some _ _ _ Hs) as Hlt.
  set (w1 := after_dispose s c w).
  assert (heap w1 !! s = Some (with_interval None c)) as Hs1.
  { cbn. by rewrite list_lookup_insert_eq. }
  exists (length (promises w)), w1.
  split; [by rewrite dispose_eq, Hs|]. split; [done|]. split; [done|]. split.
  - intros evs w2 Hevs Hrun.
    destruct (run_keeps_idle s env evs w1 w2 Hevs Hrun) as (c2 & Hs2 & Hi).
    { by apply idle_after_dispose. }
    exists c2. split; [done|]. unfold running. by rewrite Hi.
  - set (w3 := after_resume s (with_interval None c) w1).
    assert (heap w3 !! s = Some (with_interval (Some (length (timers w1))) c)) as Hs3.
    { cbn. rewrite list_lookup_insert_eq; [done|]. by rewrite length_insert. }
    assert (armed w3 (length (timers w1)) =
            Some {| tm_this := s; tm_delay := _pushInterval c |}) as Ht.
    { unfold armed. cbn. rewrite decide_True by set_solver.
      by rewrite lookup_app_r, Nat.sub_diag. }
    exists w3, (length (timers w1)),
      (after_pushStats s (with_interval (Some (length (timers w1))) c) w3).
    split; [by rewrite resume_eq, Hs1|]. split; [done|]. split; [done|].
    split; [done|]. split.
    { cbn [step]. rewrite Ht. unfold task. cbn [tm_this]. by rewrite _pushStats_eq, Hs3. }
    rewrite (pushes_of_snoc s w3 _ (push_request s c)) by done.
    unfold is_push_of. cbn. by rewrite bool_decide_eq_true_2.
Qed.

(** C1, as the code has it.  [dispose] returns; what it did is [pause]
    (the interval of the handle is disarmed, the handle emptied) followed by
    the sending of exactly one request, a delete under the identity of the
    session, in flight on return, with a new pending promise as result.
    The promise is resolved when the transport answers the request without
    error and rejected with the transport's error otherwise.  If the
    session was single-armed, then from the return of [dispose] on, whatever
    events follow other than a call of [resume] on it, it sends no push. *)
Theorem dispose_pauses_deletes_and_settles env s c w :
  heap w !! s = Some c →
  ∃ wp p w1,
    let r := length (sent w) in
    pause s w = Ret () wp ∧
    heap wp !! s = Some (with_interval None c) ∧
    (∀ t, _interval c = Some t → armed wp t = None) ∧
    dispose s w = Ret p w1 ∧
    heap w1 = heap wp ∧ timers w1 = timers wp ∧ active w1 = active wp ∧
    sent wp = sent w ∧
    sent w1 = sent w ++ [delete_request s c p] ∧
    in_flight w1 r = Some (delete_request s c p) ∧
    promises w !! p = None ∧ promises w1 !! p = Some Pending ∧
    (∃ w2, step env (Response r None) w1 = Some w2 ∧
           promises w2 !! p = Some Resolved) ∧
    (∀ e, ∃ w2, step env (Response r (Some e)) w1 = Some w2 ∧
                promises w2 !! p = Some (Rejected e)) ∧
    (single_armed s w →
     ∀ evs w2, no_resume s evs → run env evs w1 = Some w2 →
               pushes_of s w2 = pushes_of s w1).
Proof.
  intros Hs. pose proof (lookup_lt_Some _ _ _ Hs) as Hlt.
  set (w1 := after_dispose s c w).
  assert (heap w1 !! s = Some (with_interval None c)) as Hs1.
  { cbn. by rewrite list_lookup_insert_eq. }
  exists (after_pause s c w), (length (promises w)), w1. cbn zeta.
  split; [by rewrite pause_eq, Hs|].
  split; [by apply heap_after_pause|]. split.
  { intros t Hi. unfold armed. cbn. rewrite Hi. rewrite decide_False; [done|].
    intros [_ Hn]%elem_of_difference. apply Hn. by apply elem_of_singleton. }
  split; [by rewrite dispose_eq, Hs|].
  split; [done|]. split; [done|]. split; [done|]. split; [done|]. split; [done|].
  assert (in_flight w1 (length (sent w)) =
          Some (delete_request s c (length (promises w)))) as Hr.
  { unfold in_flight. cbn. rewrite decide_True by set_solver.
    by rewrite lookup_app_r, Nat.sub_diag. }
  split; [done|]. split; [by apply lookup_ge_None|]. split.
  { cbn. by rewrite lookup_app_r, Nat.sub_diag. }
  assert (∀ error st,
            st = match error with Some e => Rejected e | None => Resolved end →
            ∃ w2, step env (Response (length (sent w)) error) w1 = Some w2 ∧
                  promises w2 !! length (promises w) = Some st) as Hsettle.
  { intros error st ->. cbn [step]. rewrite Hr. unfold task. rewrite run_callback_eq.
    cbn [heap with_pending cb_this req_callback delete_request]. rewrite Hs1.
    eexists. split; [reflexivity|].
    destruct error as [e|]; cbn [after_callback after_on_deleted];
      apply promises_settled; cbn; by rewrite lookup_app_r, Nat.sub_diag. }
  split; [by apply (Hsettle None)|]. split.
  { intros e. by apply (Hsettle (Some e)). }
  intros Hsingle evs w2 Hevs Hrun.
  by destruct (run_keeps_silent s env evs w1 w2 Hevs Hrun
                 (silent_after_dispose s c w Hs Hsingle)).
Qed.

(** ** The labels of the singleton session *)

(** C8, as the code has it.  [start] takes the options and nothing else.
    It returns with a new session in the slot whose identity is the job
    name of the options and exactly the two labels [hostname] and
    [username] of the host, those [getDefaultLabels] would compute: no
    field of the caller is merged in.  The caller's labels go to [create],
    which gives the session exactly these, without the defaults. *)
Theorem start_labels_are_hostname_and_username env options w :
  match _default w with Some d => is_Some (heap w !! d) | None => True end →
  (∃ w' n c,
     start env options w = Ret () w' ∧
     _default w' = Some n ∧ heap w' !! n = Some c ∧
     _params c =
       {| jobName := metricsJobName options;
          groupings := {[ "hostname" := os_hostname env;
                          "username" := os_username env ]} |} ∧
     groupings (_params c) = getDefaultLabels env) ∧
  (∀ labels, ∃ w' n c,
     create env options labels w = Ret n w' ∧ heap w' !! n = Some c ∧
     _params c = {| jobName := metricsJobName options; groupings := labels |}).
Proof.
  intros Hd. split.
  - rewrite start_eq. cbn zeta. destruct (_default w) as [d|].
    + destruct Hd as [c Hc]. rewrite Hc. eexists _, _, _. split; [reflexivity|].
      split; [reflexivity|]. split.
      { cbn. rewrite !length_insert.
        by rewrite list_lookup_insert_eq
          by (rewrite length_app, length_insert; cbn; lia). }
      split; reflexivity.
    + eexists _, _, _. split; [reflexivity|]. split; [reflexivity|]. split.
      { cbn. by rewrite list_lookup_insert_eq by (rewrite length_app; cbn; lia). }
      split; reflexivity.
  - intros labels. eexists _, _, _. split; [apply create_eq|]. split.
    { cbn. by rewrite list_lookup_insert_eq by (rewrite length_app; cbn; lia). }
    reflexivity.
Qed.

(** ** The scenario, checked *)

Lemma active_after_create env options labels w :
  active (after_create env options labels w) = {[length (timers w)]} ∪ active w.
Proof. reflexivity. Qed.

Lemma step_start env options w :
  step env (CallStart options) w = after_start (getDefaultLabels env) env options w.
Proof.
  unfold step, task, after_start. rewrite start_eq. cbn zeta.
  destruct (_default w) as [d|]; [|reflexivity].
  by destruct (heap w !! d).
Qed.

Lemma run_cons_Some env ev evs w w1 w' :
  step env ev w = Some w1 → run env evs w1 = Some w' →
  run env (ev :: evs) w = Some w'.
Proof. intros H1 H2. cbn [run]. by rewrite H1. Qed.

(** Runs of the scenario for any host, options and labels. *)
Section Runs.

Variables (env : Host) (options : MetricsOptions) (labels : Labels).
Variables (url : Url) (iv : Z) (job : string) (e : Error).

Let created : World := after_create env options labels init.

Let created_client : MetricsClient :=
  with_interval (Some 0)
    (fresh_client (url_parse env (metricsPushgatewayUrl options))
       (metricsPushgatewayPushInterval options) (metricsJobName options) labels).

Lemma created_in_flight : in_flight created 0 = Some (push_request 0 created_client).
Proof. vm_compute. reflexivity. Qed.

Lemma created_armed :
  armed created 0 = Some {| tm_this := 0; tm_delay := _pushInterval created_client |}.
Proof. vm_compute. reflexivity. Qed.

Lemma run_resume_dispose_tick :
  ∃ w p w1 w2 w3,
    run env [CallCreate options labels; CallResume 0] init = Some w ∧
    dispose 0 w = Ret p w1 ∧
    step env (Response 1 None) w1 = Some w2 ∧
    promises w2 !! p = Some Resolved ∧
    step env (Tick 0) w2 = Some w3 ∧
    length (pushes_of 0 w2) = 1 ∧
    length (pushes_of 0 w3) = 2.
Proof.
  eexists _, _, _, _, _.
  split; [vm_compute; reflexivity|].
  split; [vm_compute; reflexivity|].
  split; [vm_compute; reflexivity|].
  split; [vm_compute; reflexivity|].
  split; [vm_compute; reflexivity|].
  split; vm_compute; reflexivity.
Qed.

Lemma run_ticks_after_new :
  ∃ w2,
    run env [Tick 0; Response 1 (Some e); Tick 0] (after_new url iv job labels init)
      = Some w2 ∧
    length (drop (length (sent init)) (sent w2)) = 3.
Proof. eexists. split; vm_compute; reflexivity. Qed.

Lemma run_dispose_resume_tick :
  ∃ w c w',
    run env [CallCreate options labels; CallDispose 0; Response 1 None; CallResume 0]
        init = Some w ∧
    promises w !! 0 = Some Resolved ∧
    heap w !! 0 = Some c ∧ running c = true ∧ _interval c = Some 1 ∧
    armed w 1 = Some {| tm_this := 0;
                        tm_delay := metricsPushgatewayPushInterval options |} ∧
    step env (Tick 1) w = Some w' ∧
    length (pushes_of 0 w) = 1 ∧ length (pushes_of 0 w') = 2.
Proof.
  eexists _, _, _.
  split; [vm_compute; reflexivity|].
  split; [vm_compute; reflexivity|].
  split; [vm_compute; reflexivity|].
  split; [vm_compute; reflexivity|].
  split; [vm_compute; reflexivity|].
  split; [vm_compute; reflexivity|].
  split; [vm_compute; reflexivity|].
  split; vm_compute; reflexivity.
Qed.

Lemma run_ticks_and_answers :
  ∃ w', run env [Tick 0; Response 0 (Some e); Tick 0; Response 1 None] created = Some w'.
Proof. eexists. vm_compute. reflexivity. Qed.

Lemma run_uncaught : ∃ w', step env UncaughtException created = Some w'.
Proof. eexists. vm_compute. reflexivity. Qed.

Local Ltac start_step HL := rewrite step_start, <- HL; vm_compute; reflexivity.
Local Ltac other_step := vm_compute; reflexivity.

Lemma run_through_start :
  ∃ w,
    run env [CallStart options; Tick 0; CallStart options; Tick 1;
             Response 2 None; Response 0 (Some e)] init = Some w ∧
    _default w = Some 1.
Proof.
  remember (getDefaultLabels env) as L eqn:HL.
  eexists. split.
  - eapply run_cons_Some; [start_step HL|].
    eapply run_cons_Some; [other_step|].
    eapply run_cons_Some; [start_step HL|].
    eapply run_cons_Some; [other_step|].
    eapply run_cons_Some; [other_step|].
    eapply run_cons_Some; [other_step|].
    reflexivity.
  - reflexivity.
Qed.

Lemma run_two_starts :
  ∃ w,
    run env [CallStart options; CallStart options; CallDispose 1] init = Some w ∧
    length (heap w) = 2.
Proof.
  remember (getDefaultLabels env) as L eqn:HL.
  eexists. split.
  - eapply run_cons_Some; [start_step HL|].
    eapply run_cons_Some; [start_step HL|].
    eapply run_cons_Some; [other_step|].
    reflexivity.
  - reflexivity.
Qed.

Lemma run_after_dispose :
  ∃ w2,
    run env [Response 0 (Some e); CallDispose 0; UncaughtException]
        (after_dispose 0 created_client created) = Some w2.
Proof. eexists. vm_compute. reflexivity. Qed.

End Runs.

Lemma active_init : active init = ∅.
Proof. reflexivity. Qed.

Lemma single_armed_after_create env options labels w :
  (∀ t, armed w t = None) →
  single_armed (length (heap w)) (after_create env options labels w).
Proof.
  intros Hquiet t tm Ht _.
  assert (armed w t = Some tm ∨ t = length (timers w)) as [H| ->].
  { unfold armed in *. cbn [after_create after_new after_resume after_pushStats
      after_send timers active with_heap with_active with_timers with_pending
      with_sent with_logs with_uncaught_once with_default_metrics] in Ht.
    case_decide as Hin; [|done].
    apply lookup_app_Some in Ht as [Ht|[Hge Ht]].
    - left. rewrite decide_True; [done|].
      apply elem_of_union in Hin as [Hin|Hin]; [|done].
      apply elem_of_singleton in Hin. apply lookup_lt_Some in Ht. lia.
    - right. apply list_lookup_singleton_Some in Ht as [H0 _]. lia. }
  { by rewrite Hquiet in H. }
  eexists. split.
  - cbn. by rewrite list_lookup_insert_eq by (rewrite length_app; cbn; lia).
  - reflexivity.
Qed.

Lemma world0_reachable : reachable env0 world0.
Proof. exists [CallCreate opts0 labels0]. unfold run, step, task. by rewrite create_eq. Qed.

Lemma world0_session : heap world0 !! 0 = Some client0.
Proof. reflexivity. Qed.

Lemma world0_in_flight : in_flight world0 0 = Some (push_request 0 client0).
Proof. exact (created_in_flight env0 opts0 labels0). Qed.

Lemma world0_single_armed : single_armed 0 world0.
Proof.
  apply (single_armed_after_create env0 opts0 labels0 init).
  intros t. unfold armed. rewrite active_init. by rewrite decide_False.
Qed.

(** Witness of C1: [dispose] on the session of the scenario. *)
Lemma dispose_pauses_deletes_and_settles_witness :
  heap world0 !! 0 = Some client0 ∧
  ∃ wp p w1,
    let r := length (sent world0) in
    pause 0 world0 = Ret () wp ∧
    heap wp !! 0 = Some (with_interval None client0) ∧
    (∀ t, _interval client0 = Some t → armed wp t = None) ∧
    dispose 0 world0 = Ret p w1 ∧
    heap w1 = heap wp ∧ timers w1 = timers wp ∧ active w1 = active wp ∧
    sent wp = sent world0 ∧
    sent w1 = sent world0 ++ [delete_request 0 client0 p] ∧
    in_flight w1 r = Some (delete_request 0 client0 p) ∧
    promises world0 !! p = None ∧ promises w1 !! p = Some Pending ∧
    (∃ w2, step env0 (Response r None) w1 = Some w2 ∧
           promises w2 !! p = Some Resolved) ∧
    (∀ e, ∃ w2, step env0 (Response r (Some e)) w1 = Some w2 ∧
                promises w2 !! p = Some (Rejected e)) ∧
    (∀ evs w2, no_resume 0 evs → run env0 evs w1 = Some w2 →
               pushes_of 0 w2 = pushes_of 0 w1).
Proof.
  split; [reflexivity|].
  destruct (dispose_pauses_deletes_and_settles env0 0 client0 world0 world0_session)
    as (wp & p & w1 & H).
  exists wp, p, w1. cbn zeta in *.
  repeat (destruct H as [? H]; split; [assumption|]).
  exact (H world0_single_armed).
Defined.

(** Counterexample to C1 as stated.  [resume] is called on the running
    session of the scenario, then [dispose]; the delete succeeds and the
    promise is resolved.  The interval armed by the constructor was never
    cleared: its next tick sends a push. *)
Lemma dispose_leaves_the_first_interval_armed :
  ∃ w p w1 w2 w3,
    run env0 [CallCreate opts0 labels0; CallResume 0] init = Some w ∧
    dispose 0 w = Ret p w1 ∧
    step env0 (Response 1 None) w1 = Some w2 ∧
    promises w2 !! p = Some Resolved ∧
    step env0 (Tick 0) w2 = Some w3 ∧
    length (pushes_of 0 w2) = 1 ∧
    length (pushes_of 0 w3) = 2.
Proof. exact (run_resume_dispose_tick env0 opts0 labels0). Qed.

(** Witness of C2: the session of the scenario, two ticks, one of them
    answered with an error, then [dispose]. *)
Lemma one_identity_for_pushes_and_delete_witness :
  let evs := [Tick 0; Response 1 (Some err0); Tick 0] in
  let identity := {| jobName := "svc"; groupings := labels0 |} in
  ∃ w1 w2,
    new url0 1000 "svc" labels0 init = Ret 0 w1 ∧
    run env0 evs w1 = Some w2 ∧
    length (drop (length (sent init)) (sent w2)) = 3 ∧
    (∀ rq, rq ∈ drop (length (sent init)) (sent w2) →
           cb_this (req_callback rq) = 0 → req_params rq = identity) ∧
    ∃ p w3,
      dispose 0 w2 = Ret p w3 ∧
      sent w3 = sent w2 ++ [{| req_gateway := href url0; req_method := Delete;
                               req_params := identity;
                               req_callback := DisposeCallback 0 p |}].
Proof.
  intros evs identity.
  destruct (run_ticks_after_new env0 labels0 url0 1000 "svc" err0) as (w2 & Hrun & Hlen).
  destruct (one_identity_for_pushes_and_delete env0 url0 1000 "svc" labels0 init evs w2)
    as (w1 & Hnew & _ & H).
  rewrite new_eq in Hnew. injection Hnew as <-.
  exists (after_new url0 1000 "svc" labels0 init), w2.
  split; [apply new_eq|]. split; [exact Hrun|]. split; [exact Hlen|].
  exact (H Hrun).
Defined.

(** Witness of C3: the initial push of the scenario fails. *)
Lemma push_failure_is_only_logged_witness :
  reachable env0 world0 ∧
  heap world0 !! 0 = Some client0 ∧
  _interval client0 = Some 0 ∧
  in_flight world0 0 = Some (push_request 0 client0) ∧
  ∃ w' w'',
    step env0 (Response 0 (Some err0)) world0 = Some w' ∧
    logs w' = logs world0 ++ [push_failed_entry client0 err0] ∧
    timers w' = timers world0 ∧ active w' = active world0 ∧
    armed w' 0 = Some {| tm_this := 0; tm_delay := 1000 |} ∧
    step env0 (Tick 0) w' = Some w'' ∧
    sent w'' = sent w' ++ [push_request 0 client0].
Proof.
  split; [exact world0_reachable|]. split; [reflexivity|]. split; [reflexivity|].
  split; [exact world0_in_flight|].
  destruct (push_failure_is_only_logged env0 0 client0 0 0 (push_request 0 client0)
              err0 world0 world0_reachable world0_session eq_refl world0_in_flight
              eq_refl)
    as (w' & w'' & H).
  exists w', w''. tauto.
Defined.

(** Witness of C5: [start] a second time. *)
Lemma start_replaces_the_held_session_witness :
  _default world_started = Some 0 ∧
  heap world_started !! 0 = Some client_started ∧
  ∃ w' n cn p,
    start env0 opts0 world_started = Ret () w' ∧
    n = length (heap world_started) ∧ n ≠ 0 ∧
    _default w' = Some n ∧
    heap w' !! n = Some cn ∧ running cn = true ∧
    heap w' !! 0 = Some (with_interval None client_started) ∧
    sent w' = sent world_started ++
                [delete_request 0 client_started p; push_request n cn] ∧
    in_flight w' (length (sent world_started)) =
      Some (delete_request 0 client_started p) ∧
    promises w' !! p = Some Pending.
Proof.
  split; [reflexivity|]. split; [reflexivity|].
  apply (start_replaces_the_held_session env0 opts0 0 client_started world_started);
    reflexivity.
Defined.

(** Witness of C6: [dispose] on the session of the scenario. *)
Lemma dispose_stops_the_session_until_resume_witness :
  heap world0 !! 0 = Some client0 ∧
  ∃ p w1,
    dispose 0 world0 = Ret p w1 ∧
    heap w1 !! 0 = Some (with_interval None client0) ∧
    running (with_interval None client0) = false ∧
    (∀ evs w2, no_resume 0 evs → run env0 evs w1 = Some w2 →
               ∃ c2, heap w2 !! 0 = Some c2 ∧ running c2 = false) ∧
    (∃ w3 t w4,
       resume 0 w1 = Ret () w3 ∧
       heap w3 !! 0 = Some (with_interval (Some t) client0) ∧
       running (with_interval (Some t) client0) = true ∧
       armed w3 t = Some {| tm_this := 0; tm_delay := _pushInterval client0 |} ∧
       step env0 (Tick t) w3 = Some w4 ∧
       pushes_of 0 w4 = pushes_of 0 w3 ++ [push_request 0 client0]).
Proof.
  split; [reflexivity|].
  apply (dispose_stops_the_session_until_resume env0 0 client0 world0). reflexivity.
Defined.

(** Counterexample to C6 as stated.  The session of the scenario is
    disposed of and its delete answered; [resume] is then called on it.
    It is running again, on a new interval, whose tick sends a push. *)
Lemma resume_revives_a_disposed_session :
  ∃ w c w',
    run env0 [CallCreate opts0 labels0; CallDispose 0; Response 1 None; CallResume 0]
        init = Some w ∧
    promises w !! 0 = Some Resolved ∧
    heap w !! 0 = Some c ∧ running c = true ∧ _interval c = Some 1 ∧
    armed w 1 = Some {| tm_this := 0; tm_delay := 1000 |} ∧
    step env0 (Tick 1) w = Some w' ∧
    length (pushes_of 0 w) = 1 ∧ length (pushes_of 0 w') = 2.
Proof. exact (run_dispose_resume_tick env0 opts0 labels0). Qed.

(** Witness of C7: [resume] on the running session of the scenario. *)
Lemma resume_while_running_arms_a_second_interval_witness :
  reachable env0 world0 ∧
  heap world0 !! 0 = Some client0 ∧
  _interval client0 = Some 0 ∧
  ∃ w' t',
    resume 0 world0 = Ret () w' ∧
    t' ≠ 0 ∧ armed world0 t' = None ∧
    armed world0 0 = Some {| tm_this := 0; tm_delay := _pushInterval client0 |} ∧
    heap w' !! 0 = Some (with_interval (Some t') client0) ∧
    armed w' 0 = Some {| tm_this := 0; tm_delay := _pushInterval client0 |} ∧
    armed w' t' = Some {| tm_this := 0; tm_delay := _pushInterval client0 |} ∧
    ∀ u, u = 0 ∨ u = t' →
      ∃ w'', step env0 (Tick u) w' = Some w'' ∧
             sent w'' = sent w' ++ [push_request 0 client0] ∧
             armed w'' 0 = Some {| tm_this := 0; tm_delay := _pushInterval client0 |} ∧
             armed w'' t' = Some {| tm_this := 0; tm_delay := _pushInterval client0 |}.
Proof.
  split; [exact world0_reachable|]. split; [reflexivity|]. split; [reflexivity|].
  exact (resume_while_running_arms_a_second_interval env0 0 client0 0 world0
           world0_reachable world0_session eq_refl).
Defined.

(** Counterexample to C8 as stated.  Whatever identity a caller may mean
    to supply, say [{instance: "a"}], [start] has no parameter to take it:
    the groupings of the session it creates are no merge of the defaults
    with it. *)
Lemma start_merges_no_supplied_identity :
  ∃ w c,
    start env0 opts0 init = Ret () w ∧
    _default w = Some 0 ∧ heap w !! 0 = Some c ∧
    ¬ merges (getDefaultLabels env0) labels0 (groupings (_params c)).
Proof.
  exists world_started, client_started.
  split; [by rewrite start_eq|]. split; [reflexivity|]. split; [reflexivity|].
  intros [Hdom _].
  assert ("instance" ∈ dom (groupings (_params client_started))) as Hin.
  { rewrite Hdom. apply elem_of_union_r, elem_of_dom. by exists "a". }
  apply elem_of_dom in Hin as [v Hv].
  change (getDefaultLabels env0 !! "instance" = Some v) in Hv.
  unfold getDefaultLabels in Hv.
  rewrite lookup_insert_ne in Hv by done.
  by rewrite lookup_singleton_ne in Hv.
Qed.

(** Witness of C8: [start] a second time. *)
Lemma start_labels_are_hostname_and_username_witness :
  match _default world_started with
  | Some d => is_Some (heap world_started !! d)
  | None => True
  end ∧
  (∃ w' n c,
     start env0 opts0 world_started = Ret () w' ∧
     _default w' = Some n ∧ heap w' !! n = Some c ∧
     _params c =
       {| jobName := metricsJobName opts0;
          groupings := {[ "hostname" := os_hostname env0;
                          "username" := os_username env0 ]} |} ∧
     groupings (_params c) = getDefaultLabels env0) ∧
  (∀ labels, ∃ w' n c,
     create env0 opts0 labels world_started = Ret n w' ∧ heap w' !! n = Some c ∧
     _params c = {| jobName := metricsJobName opts0; groupings := labels |}).
Proof.
  assert (match _default world_started with
          | Some d => is_Some (heap world_started !! d)
          | None => True
          end) as H by (exists client_started; reflexivity).
  split; [exact H|].
  exact (start_labels_are_hostname_and_username env0 opts0 world_started H).
Defined.

(** Witness of C9: the session of the scenario. *)
Lemma only_the_handle_changes_witness :
  heap world0 !! 0 = Some client0 ∧
  (∀ op s', is_Some (heap world0 !! s') →
     ∃ w' h, perform op s' world0 = Ret () w' ∧
             heap w' !! 0 = Some (with_interval h client0)) ∧
  (∀ ev w', step env0 ev world0 = Some w' →
     ∃ h, heap w' !! 0 = Some (with_interval h client0)).
Proof.
  split; [reflexivity|].
  apply (only_the_handle_changes env0 0 client0 world0). reflexivity.
Defined.

(** Witness of C10: the session of the scenario, disposed of twice. *)
Lemma dispose_is_not_guarded_witness :
  heap world0 !! 0 = Some client0 ∧
  0 ∈ uncaught_once world0 ∧
  Forall (λ l, l < length (heap world0)) (uncaught_once world0) ∧
  ∃ p1 w1 p2 w2,
    dispose 0 world0 = Ret p1 w1 ∧ dispose 0 w1 = Ret p2 w2 ∧
    p1 ≠ p2 ∧
    sent w2 = sent world0 ++ [delete_request 0 client0 p1; delete_request 0 client0 p2] ∧
    promises w2 !! p1 = Some Pending ∧ promises w2 !! p2 = Some Pending ∧
    ∃ w3, step env0 UncaughtException w1 = Some w3 ∧
          length (deletes_of 0 w1) < length (deletes_of 0 w3).
Proof.
  assert (0 ∈ uncaught_once world0) as Hin by (cbn; apply list_elem_of_here).
  assert (Forall (λ l, l < length (heap world0)) (uncaught_once world0)) as Hall
    by (cbn; repeat constructor).
  split; [reflexivity|]. split; [exact Hin|]. split; [exact Hall|].
  destruct (dispose_is_not_guarded env0 0 client0 world0 world0_session)
    as (p1 & w1 & p2 & w2 & H).
  cbn zeta in H. exists p1, w1, p2, w2.
  destruct H as (H1 & H2 & H3 & H4 & _ & _ & H7 & H8 & _ & H10).
  repeat (split; [assumption|]). exact (H10 Hin Hall).
Defined.

(** Witness of C4: the first session of a process, and the
    [uncaughtException] that follows its construction. *)
Lemma constructor_pushes_once_then_arms_witness :
  Forall (λ l, l < length (heap init)) (uncaught_once init) ∧
  ∃ w' c t,
    new url0 1000 "svc" labels0 init = Ret 0 w' ∧
    heap w' !! 0 = Some c ∧ c = with_interval (Some t) (fresh_client url0 1000 "svc" labels0) ∧
    running c = true ∧
    armed w' t = Some {| tm_this := 0; tm_delay := 1000 |} ∧
    sent w' = [push_request 0 c] ∧
    in_flight w' 0 = Some (push_request 0 c) ∧
    uncaught_once w' = [0] ∧
    ∃ w'' c'' p,
      step env0 UncaughtException w' = Some w'' ∧
      uncaught_once w'' = [] ∧
      heap w'' !! 0 = Some c'' ∧ running c'' = false ∧
      armed w'' t = None ∧
      last (sent w'') = Some (delete_request 0 c p).
Proof.
  assert (Forall (λ l, l < length (heap init)) (uncaught_once init)) as Hall
    by constructor.
  split; [exact Hall|].
  destruct (constructor_pushes_once_then_arms env0 url0 1000 "svc" labels0 init)
    as (w' & c & t & H).
  exists w', c, t.
  destruct H as (H1 & H2 & H3 & H4 & H5 & H6 & H7 & H8 & H9 & _).
  repeat (split; [assumption|]). exact (H9 Hall).
Defined.

(** * Further properties of the class *)

(** ** [pause] and [resume] *)

Lemma silent_after_pause s c w :
  heap w !! s = Some c → single_armed s w → silent s (after_pause s c w).
Proof.
  intros Hs Hsingle. split.
  - exists (with_interval None c). split; [|done]. by apply heap_after_pause.
  - intros t tm Ht Hthis. unfold armed in Ht. cbn in Ht.
    case_decide as Hin; [|done].
    destruct (Hsingle t tm) as (c' & Hs' & Hi); [|done|].
    + unfold armed. rewrite decide_True; [done|]. by eapply cleared_subseteq.
    + replace c' with c in Hi by congruence. rewrite Hi in Hin.
      apply elem_of_difference in Hin as [_ Hn]. apply Hn. by apply elem_of_singleton.
Qed.

(** X1.  [pause] is idempotent: on a session that exists it returns, and
    a second [pause] returns as well and leaves the process exactly as the
    first one left it. *)
Theorem pause_twice_is_pause s c w :
  heap w !! s = Some c →
  ∃ w1, pause s w = Ret () w1 ∧ pause s w1 = Ret () w1.
Proof.
  intros Hs. exists (after_pause s c w). split; [by rewrite pause_eq, Hs|].
  rewrite pause_eq, (heap_after_pause s c w Hs).
  unfold after_pause. cbn. by rewrite list_insert_insert_eq.
Qed.

(** X2.  On a single-armed session, [pause] stops the pushes without
    touching the requests: it returns, the session is not running, what
    was sent and what is in flight is unchanged, and whatever events
    follow other than a call of [resume] on the session, the session sends
    no push. *)
Theorem pause_stops_the_pushes env s c w :
  heap w !! s = Some c →
  single_armed s w →
  ∃ w1,
    pause s w = Ret () w1 ∧
    heap w1 !! s = Some (with_interval None c) ∧
    sent w1 = sent w ∧ pending w1 = pending w ∧
    (∀ t tm, armed w1 t = Some tm → tm_this tm ≠ s) ∧
    ∀ evs w2, no_resume s evs → run env evs w1 = Some w2 →
              pushes_of s w2 = pushes_of s w1.
Proof.
  intros Hs Hsingle. exists (after_pause s c w).
  pose proof (silent_after_pause s c w Hs Hsingle) as Hsilent.
  split; [by rewrite pause_eq, Hs|]. split; [by apply heap_after_pause|].
  split; [done|]. split; [done|]. split; [apply Hsilent|].
  intros evs w2 Hevs Hrun.
  by destruct (run_keeps_silent s env evs _ w2 Hevs Hrun Hsilent).
Qed.

(** X3.  [pause] followed by [resume] restarts a single-armed session
    cleanly: both return, the session is running on a new interval of the
    configured delay, and that interval is the only armed one that pushes
    for it, so the session is single-armed again. *)
Theorem pause_then_resume_rearms_once s c w :
  heap w !! s = Some c →
  single_armed s w →
  ∃ w1 w2 t',
    pause s w = Ret () w1 ∧ resume s w1 = Ret () w2 ∧
    armed w t' = None ∧
    heap w2 !! s = Some (with_interval (Some t') c) ∧
    armed w2 t' = Some {| tm_this := s; tm_delay := _pushInterval c |} ∧
    (∀ t tm, armed w2 t = Some tm → tm_this tm = s → t = t') ∧
    single_armed s w2.
Proof.
  intros Hs Hsingle. pose proof (lookup_lt_Some _ _ _ Hs) as Hlt.
  set (w1 := after_pause s c w).
  set (w2 := after_resume s (with_interval None c) w1).
  pose proof (silent_after_pause s c w Hs Hsingle) as [_ Hsilent].
  assert (heap w2 !! s = Some (with_interval (Some (length (timers w))) c)) as Hs2.
  { cbn. rewrite list_lookup_insert_eq; [done|]. by rewrite length_insert. }
  assert (∀ t tm, armed w2 t = Some tm → tm_this tm = s → t = length (timers w))
    as Honly.
  { intros t tm Ht Hthis.
    destruct (decide (t = length (timers w))) as [|Hne]; [done|].
    destruct (Hsilent t tm); [|done].
    unfold armed in *. cbn in Ht. case_decide as Hin; [|done].
    apply elem_of_union in Hin as [Hin|Hin];
      [by apply elem_of_singleton in Hin|].
    change (active w1) with (match _interval c with
                             | Some t0 => active w ∖ {[t0]}
                             | None => active w
                             end).
    rewrite decide_True by done.
    apply lookup_app_Some in Ht as [Ht|[Hge Ht]]; [done|].
    apply lookup_lt_Some in Ht. cbn in Ht. lia. }
  exists w1, w2, (length (timers w)).
  split; [by rewrite pause_eq, Hs|].
  split.
  { rewrite resume_eq. change (heap w1 !! s) with (heap (after_pause s c w) !! s).
    by rewrite (heap_after_pause s c w Hs). }
  split.
  { unfold armed. case_decide; [|done]. by apply lookup_ge_None. }
  split; [done|]. split; [by apply (armed_fresh w1)|]. split; [done|].
  intros t tm Ht Hthis. rewrite (Honly t tm Ht Hthis). by eexists.
Qed.

(** X4.  In a process that runs from its start, a session that reports
    [running] has an interval behind its handle that is armed, pushes for
    this very session and has the configured delay. *)
Theorem running_session_has_an_armed_interval env s c w :
  reachable env w →
  heap w !! s = Some c →
  running c = true →
  ∃ t, _interval c = Some t ∧
       armed w t = Some {| tm_this := s; tm_delay := _pushInterval c |} ∧
       ∃ w', step env (Tick t) w = Some w' ∧
             sent w' = sent w ++ [push_request s c].
Proof.
  intros Hreach Hs Hrun. unfold running in Hrun.
  destruct (_interval c) as [t|] eqn:Hi; [|done]. exists t.
  pose proof (reachable_handles_armed env w Hreach s c t Hs Hi) as Ht.
  split; [done|]. split; [done|].
  exists (after_pushStats s c w). split; [|done].
  cbn [step]. rewrite Ht. unfold task. cbn [tm_this]. by rewrite _pushStats_eq, Hs.
Qed.

(** ** Ticks and answers *)

Lemma settled_frame p st w :
  heap (settled p st w) = heap w ∧ timers (settled p st w) = timers w ∧
  active (settled p st w) = active w ∧ sent (settled p st w) = sent w ∧
  pending (settled p st w) = pending w ∧
  uncaught_once (settled p st w) = uncaught_once w ∧
  _default (settled p st w) = _default w ∧ logs (settled p st w) = logs w.
Proof. unfold settled. by destruct (promises w !! p) as [[]|]. Qed.

Lemma after_callback_frame cb c error w :
  let w' := after_callback cb c error w in
  heap w' = heap w ∧ timers w' = timers w ∧ active w' = active w ∧
  sent w' = sent w ∧ pending w' = pending w ∧
  uncaught_once w' = uncaught_once w ∧ _default w' = _default w.
Proof.
  destruct cb as [s|s p]; cbn; [done|].
  destruct error as [e|]; cbn;
    match goal with |- context [settled ?p ?st ?w0] =>
      destruct (settled_frame p st w0) as (-> & -> & -> & -> & -> & -> & -> & _)
    end; done.
Qed.

Lemma armed_same w w' t :
  timers w' = timers w → active w' = active w → armed w' t = armed w t.
Proof. unfold armed. by intros -> ->. Qed.

Lemma tick_step env s c t w :
  heap w !! s = Some c →
  armed w t = Some {| tm_this := s; tm_delay := _pushInterval c |} →
  step env (Tick t) w = Some (after_pushStats s c w).
Proof.
  intros Hs Ht. cbn [step]. rewrite Ht. unfold task. cbn [tm_this].
  by rewrite _pushStats_eq, Hs.
Qed.

Lemma ticks_run env s c t n w :
  heap w !! s = Some c →
  armed w t = Some {| tm_this := s; tm_delay := _pushInterval c |} →
  ∃ w', run env (replicate n (Tick t)) w = Some w'.
Proof.
  revert w. induction n as [|n IH]; intros w Hs Ht; cbn [replicate run].
  - by eexists.
  - rewrite (tick_step env s c t w Hs Ht). by apply IH.
Qed.

Lemma ticks_and_answers env s c t evs w w' :
  heap w !! s = Some c →
  armed w t = Some {| tm_this := s; tm_delay := _pushInterval c |} →
  Forall (tick_or_answer t) evs → run env evs w = Some w' →
  pushes_of s w' =
    pushes_of s w ++ replicate (length (List.filter is_tick evs)) (push_request s c) ∧
  armed w' t = Some {| tm_this := s; tm_delay := _pushInterval c |}.
Proof.
  revert w. induction evs as [|ev evs IH]; intros w Hs Ht Hevs Hrun.
  - cbn in Hrun. injection Hrun as <-. cbn. by rewrite app_nil_r.
  - apply Forall_cons in Hevs as [Hev Hevs]. cbn [run] in Hrun.
    destruct (step env ev w) as [w1|] eqn:Hstep; [|done].
    destruct ev as [t'|r error| | | | | |]; try done.
    + cbn in Hev. subst t'. rewrite (tick_step env s c t w Hs Ht) in Hstep.
      injection Hstep as <-.
      destruct (IH (after_pushStats s c w)) as [Hp Ha]; [done..|].
      split; [|done]. rewrite Hp.
      rewrite (pushes_of_snoc s w _ (push_request s c)) by done.
      unfold is_push_of. cbn. rewrite bool_decide_eq_true_2 by done.
      by rewrite <- app_assoc.
    + apply step_inv in Hstep as (rq & c' & _ & _ & ->).
      destruct (after_callback_frame (req_callback rq) c' error
                  (with_pending (pending w ∖ {[r]}) w))
        as (Hh & Htm & Hact & Hsent & _).
      cbn zeta in *.
      set (w1 := after_callback _ _ _ _) in *.
      destruct (IH w1) as [Hp Ha]; [by rewrite Hh| |done..|].
      { by rewrite (armed_same w w1). }
      split; [|done]. rewrite Hp. cbn. by rewrite (pushes_of_same s w w1).
Qed.

(** X5.  While an interval [t] of a session is armed, every tick of [t]
    sends exactly one push request of the session under its identity,
    whatever the transport answered in between, failures included: any
    number of ticks can follow one another, and over events that are ticks
    of [t] or answers the session has sent as many further pushes as there
    were ticks, with [t] still armed at the end. *)
Theorem every_tick_pushes_whatever_the_answers env s c t w :
  heap w !! s = Some c →
  armed w t = Some {| tm_this := s; tm_delay := _pushInterval c |} →
  (∀ n, ∃ w', run env (replicate n (Tick t)) w = Some w') ∧
  (∀ evs w',
     Forall (tick_or_answer t) evs → run env evs w = Some w' →
     pushes_of s w' =
       pushes_of s w ++ replicate (length (List.filter is_tick evs)) (push_request s c) ∧
     armed w' t = Some {| tm_this := s; tm_delay := _pushInterval c |}).
Proof.
  intros Hs Ht. split.
  - intros n. by apply (ticks_run env s c).
  - intros evs w'. by apply ticks_and_answers.
Qed.

(** X6.  The answer to a push request, success or failure, only writes
    one line to the log of the session, whatever state the session is in
    (running, paused, disposed of): the callback returns, sessions,
    intervals, requests, promises, listeners and the slot are what they
    were, and the request is no longer in flight. *)
Theorem push_answer_only_logs env s c r rq error w :
  heap w !! s = Some c →
  in_flight w r = Some rq →
  req_callback rq = PushCallback s →
  ∃ w',
    step env (Response r error) w = Some w' ∧
    logs w' = logs w ++ [match error with
                         | Some e => push_failed_entry c e
                         | None => pushed_entry c
                         end] ∧
    heap w' = heap w ∧ timers w' = timers w ∧ active w' = active w ∧
    sent w' = sent w ∧ promises w' = promises w ∧
    uncaught_once w' = uncaught_once w ∧ _default w' = _default w ∧
    in_flight w' r = None ∧
    (∀ r', r' ≠ r → in_flight w' r' = in_flight w r').
Proof.
  intros Hs Hr Hcb.
  exists (after_on_pushed c error (with_pending (pending w ∖ {[r]}) w)).
  split.
  { cbn [step]. rewrite Hr. unfold task. rewrite Hcb. cbn [run_callback].
    rewrite on_pushed_eq. cbn [heap with_pending]. by rewrite Hs. }
  do 8 (split; [done|]). split.
  - unfold in_flight. cbn. rewrite decide_False; [done|].
    intros [_ Hn]%elem_of_difference. apply Hn. by apply elem_of_singleton.
  - intros r' Hne. unfold in_flight. cbn.
    destruct (decide (r' ∈ pending w)) as [Hin|Hin].
    + rewrite decide_True; [done|]. apply elem_of_difference. split; [done|].
      by rewrite elem_of_singleton.
    + rewrite decide_False; [done|]. by intros [? _]%elem_of_difference.
Qed.

(** ** The fatal-error hook *)

Lemma idle_after_uncaught s l c w :
  heap w !! l = Some c → idle s w →
  idle s (after_dispose l (with_interval None c) (after_pause l c w)).
Proof.
  intros Hl Hi.
  apply (idle_heap s
           (with_heap (<[l := with_interval None (with_interval None c)]>
                         (<[l := with_interval None c]> (heap w))) w)); [done|].
  apply (idle_insert s l None (with_interval None c)
           (with_heap (<[l := with_interval None c]> (heap w)) w)).
  - cbn. apply list_lookup_insert_eq. by eapply lookup_lt_Some.
  - done.
  - by apply idle_insert.
Qed.

Lemma run_listeners_Ret ls w w' :
  run_listeners ls w = Ret () w' →
  uncaught_once w' = uncaught_once w ∧
  (∀ s, idle s w → idle s w') ∧
  (∀ l, l ∈ ls → idle l w') ∧
  (∀ s, length (deletes_of s w') =
        length (deletes_of s w) + length (List.filter (λ l, bool_decide (l = s)) ls)).
Proof.
  revert w. induction ls as [|l ls IH]; intros w; cbn [run_listeners].
  - unfold ret. intros [= <-]. split; [done|]. split; [done|]. split.
    + intros l Hl. by apply elem_of_nil in Hl.
    + intros s. cbn. lia.
  - unfold bind. rewrite on_uncaughtException_eq.
    destruct (heap w !! l) as [c|] eqn:Hl; [|done].
    set (w1 := after_dispose l _ _). intros Hrun.
    destruct (IH w1 Hrun) as (Hu & Hidle & Hls & Hdel).
    split; [by rewrite Hu|]. split.
    { intros s Hi. apply Hidle. by apply idle_after_uncaught. }
    split.
    { intros l' Hin. apply elem_of_cons in Hin as [->|Hin]; [|by apply Hls].
      apply Hidle. exists (with_interval None c). split; [|done]. cbn.
      rewrite list_lookup_insert_eq; [done|]. rewrite length_insert.
      by eapply lookup_lt_Some. }
    intros s. rewrite Hdel.
    rewrite (deletes_of_snoc s (after_pause l c w) w1
               (delete_request l (with_interval None (with_interval None c))
                  (length (promises w)))) by done.
    rewrite length_app. unfold is_delete_of. cbn.
    change (deletes_of s (after_pause l c w)) with (deletes_of s w).
    unfold deletes_of. destruct (bool_decide (l = s)); cbn; lia.
Qed.

(** X7.  The hook registered by the constructor is one-shot.  When the
    process emits [uncaughtException] and survives, every session that had
    its listener registered ends not running and has sent one more delete
    request; no listener is left, so that a second [uncaughtException]
    right after ends the process. *)
Theorem uncaught_exception_hook_is_one_shot env w w' :
  step env UncaughtException w = Some w' →
  uncaught_once w' = [] ∧
  step env UncaughtException w' = None ∧
  ∀ l, l ∈ uncaught_once w →
       (∃ c, heap w' !! l = Some c ∧ running c = false) ∧
       length (deletes_of l w) < length (deletes_of l w').
Proof.
  intros Hstep. apply step_inv in Hstep as [_ Hrun].
  destruct (run_listeners_Ret _ _ _ Hrun) as (Hu & _ & Hls & Hdel).
  split; [done|]. split.
  { cbn. unfold emit_uncaughtException. by rewrite Hu. }
  intros l Hin. split.
  - destruct (Hls l Hin) as (c & Hc & Hi). exists c. split; [done|].
    unfold running. by rewrite Hi.
  - rewrite Hdel. change (deletes_of l (with_uncaught_once [] w)) with (deletes_of l w).
    assert (0 < length (List.filter (λ l0, bool_decide (l0 = l)) (uncaught_once w)));
      [|lia].
    apply list_elem_of_In in Hin.
    assert (In l (List.filter (λ l0, bool_decide (l0 = l)) (uncaught_once w))) as Hf.
    { apply List.filter_In. split; [done|]. by apply bool_decide_eq_true. }
    destruct (List.filter _ _); [done|cbn; lia].
Qed.

(** ** The factory and the first [start] *)


(** X9.  [start] with nothing held disposes of nothing: it returns after
    doing exactly what [create] does with the labels [hostname] and
    [username], and storing the new session in the slot.  No delete
    request is sent and no promise created; the one request sent is the
    initial push of the new session. *)
Theorem first_start_is_create_into_the_slot env options w :
  _default w = None →
  ∃ w1 w' n c,
    create env options (getDefaultLabels env) w = Ret n w1 ∧
    start env options w = Ret () w' ∧
    w' = with_default (Some n) w1 ∧
    heap w' !! n = Some c ∧ running c = true ∧
    sent w' = sent w ++ [push_request n c] ∧
    (∀ s, deletes_of s w' = deletes_of s w) ∧
    promises w' = promises w.
Proof.
  intros Hd. exists (after_create env options (getDefaultLabels env) w).
  eexists _, (length (heap w)), _.
  split; [apply create_eq|].
  split; [by rewrite start_eq, Hd|]. split; [done|]. split.
  { cbn. by rewrite list_lookup_insert_eq by (rewrite length_app; cbn; lia). }
  split; [done|]. split; [done|].
  assert (∀ s, deletes_of s (with_default (Some (length (heap w)))
                               (after_create env options (getDefaultLabels env) w)) =
               deletes_of s w) as Hdel.
  { intros s. unfold deletes_of. cbn. rewrite List.filter_app. cbn.
    by rewrite app_nil_r. }
  split; [apply Hdel|]. done.
Qed.

(** ** References stay valid, events go through *)













(** ** One running session through [start] *)

Lemma armed_snoc_inv w w' x t tm :
  timers w' = timers w ++ [x] →
  active w' = {[length (timers w)]} ∪ active w →
  armed w' t = Some tm →
  armed w t = Some tm ∨ (t = length (timers w) ∧ tm = x).
Proof.
  unfold armed. intros -> -> Ht. case_decide as Hin; [|done].
  apply lookup_app_Some in Ht as [Ht|[Hge Ht]].
  - left. rewrite decide_True; [done|].
    apply elem_of_union in Hin as [Hin|Hin]; [|done].
    apply elem_of_singleton in Hin. apply lookup_lt_Some in Ht. lia.
  - right. apply list_lookup_singleton_Some in Ht as [H0 ->]. split; [lia|done].
Qed.

Lemma held_only_same w w' :
  heap w' = heap w → timers w' = timers w → active w' = active w →
  _default w' = _default w → held_only w → held_only w'.
Proof.
  intros Hh Ht Ha Hd H t tm Htm. rewrite (armed_same w w') in Htm by done.
  rewrite Hh, Hd. by apply H.
Qed.

Lemma held_only_pause s c w :
  heap w !! s = Some c → held_only w → held_only (after_pause s c w).
Proof.
  intros Hs H t tm Htm.
  assert (armed w t = Some tm) as Hw.
  { eapply (armed_shrink w); [| |done]; [done|]. apply cleared_subseteq. }
  destruct (H t tm Hw) as (c' & Hd & Hc' & Hi). cbn [_default after_pause with_heap
    with_active heap].
  destruct (decide (s = tm_this tm)) as [Heq|Hne].
  - subst s. replace c' with c in Hi by congruence.
    unfold armed in Htm. cbn in Htm. rewrite Hi in Htm.
    case_decide as Hin; [|done].
    apply elem_of_difference in Hin as [_ Hn]. destruct Hn. by apply elem_of_singleton.
  - exists c'. split; [done|]. split; [|done]. by rewrite list_lookup_insert_ne.
Qed.

Lemma held_only_dispose s c w :
  heap w !! s = Some c → held_only w → held_only (after_dispose s c w).
Proof.
  intros Hs H. apply (held_only_same (after_pause s c w)); [done..|].
  by apply held_only_pause.
Qed.

Lemma held_only_listeners ls w w' :
  run_listeners ls w = Ret () w' → held_only w → held_only w'.
Proof.
  revert w. induction ls as [|l ls IH]; intros w; cbn [run_listeners].
  - unfold ret. by intros [= <-].
  - unfold bind. rewrite on_uncaughtException_eq.
    destruct (heap w !! l) as [c|] eqn:Hl; [|done]. intros Hrun Hw.
    apply (IH _ Hrun). apply held_only_dispose.
    + by apply heap_after_pause.
    + by apply held_only_pause.
Qed.

Lemma held_only_quiet_after_dispose d c w :
  _default w = Some d → heap w !! d = Some c → held_only w →
  ∀ t, armed (after_dispose d c w) t = None.
Proof.
  intros Hd Hc H t.
  destruct (armed (after_dispose d c w) t) as [tm|] eqn:Htm; [|done].
  destruct (held_only_dispose d c w Hc H t tm Htm) as (c' & Hd' & Hc' & Hi).
  change (_default (after_dispose d c w)) with (_default w) in Hd'.
  rewrite Hd in Hd'. injection Hd' as Heq. rewrite <- Heq in Hc'.
  cbn in Hc'. rewrite list_lookup_insert_eq in Hc' by (by eapply lookup_lt_Some).
  injection Hc' as Hc'. by rewrite <- Hc' in Hi.
Qed.

Lemma held_only_start env options w0 :
  (∀ t, armed w0 t = None) →
  held_only (with_default (Some (length (heap w0)))
               (after_create env options (getDefaultLabels env) w0)).
Proof.
  intros Hquiet t tm Htm.
  destruct (armed_snoc_inv w0
              (with_default (Some (length (heap w0)))
                 (after_create env options (getDefaultLabels env) w0))
              {| tm_this := length (heap w0);
                 tm_delay := metricsPushgatewayPushInterval options |}
              t tm eq_refl eq_refl Htm) as [Htm'|[-> ->]].
  { by rewrite Hquiet in Htm'. }
  eexists. split; [reflexivity|]. split.
  - cbn. by rewrite list_lookup_insert_eq by (rewrite length_app; cbn; lia).
  - reflexivity.
Qed.

Lemma step_held_only env ev w w' :
  through_start ev → step env ev w = Some w' → held_only w → held_only w'.
Proof.
  intros Hev Hstep Hw. apply step_inv in Hstep.
  destruct ev as [t|r error| |s|s|s|options|options labels]; try done.
  - destruct Hstep as (tm & c & _ & _ & ->). revert Hw. by apply held_only_same.
  - destruct Hstep as (rq & c & _ & _ & ->).
    destruct (after_callback_frame (req_callback rq) c error
                (with_pending (pending w ∖ {[r]}) w))
      as (Hh & Ht & Ha & _ & _ & _ & Hd).
    revert Hw. by apply held_only_same.
  - destruct Hstep as [_ Hrun]. apply (held_only_listeners _ _ _ Hrun).
    revert Hw. by apply held_only_same.
  - destruct Hstep as (c & Hc & ->). by apply held_only_pause.
  - destruct Hstep as (c & Hc & ->). by apply held_only_dispose.
  - destruct Hstep as (w0 & H0 & ->).
    assert ((∀ t, armed w0 t = None) ∧ length (heap w0) = length (heap w))
      as [Hquiet <-].
    { destruct (_default w) as [d|] eqn:Hd.
      - destruct H0 as (c & Hc & ->). split; [by apply held_only_quiet_after_dispose|].
        cbn. by rewrite length_insert.
      - subst w0. split; [|done]. intros t.
        destruct (armed w t) as [tm|] eqn:Htm; [|done].
        destruct (Hw t tm Htm) as (c & Hd' & _). congruence. }
    by apply held_only_start.
Qed.

(** X11.  In a process whose application goes through [start] only
    (it calls neither [create] nor [resume]), every interval that is armed
    is the one in the handle of the session held in the slot: sessions
    replaced by [start] have no armed interval left, and at most one
    interval is armed at any time. *)
Theorem through_start_only_the_held_session_pushes env evs w :
  Forall through_start evs →
  run env evs init = Some w →
  (∀ t tm, armed w t = Some tm →
           ∃ c, _default w = Some (tm_this tm) ∧
                heap w !! tm_this tm = Some c ∧ _interval c = Some t) ∧
  (∀ t1 t2 tm1 tm2, armed w t1 = Some tm1 → armed w t2 = Some tm2 → t1 = t2).
Proof.
  intros Hevs Hrun.
  assert (held_only w) as Hw.
  { assert (held_only init) as Hinit by (by intros t tm Htm).
    revert Hevs Hrun Hinit. generalize init.
    induction evs as [|ev evs IH]; intros w0 Hevs; cbn.
    - by intros [= <-].
    - apply Forall_cons in Hevs as [Hev Hevs].
      destruct (step env ev w0) as [w1|] eqn:E; [|done]. intros Hrun H0.
      apply (IH w1 Hevs Hrun). by apply (step_held_only env ev w0). }
  split; [exact Hw|].
  intros t1 t2 tm1 tm2 H1 H2.
  destruct (Hw t1 tm1 H1) as (c1 & Hd1 & Hc1 & Hi1).
  destruct (Hw t2 tm2 H2) as (c2 & Hd2 & Hc2 & Hi2).
  rewrite Hd1 in Hd2. injection Hd2 as Heq. rewrite Heq in Hc1. congruence.
Qed.

(** ** The further properties on the scenario *)

(** Witness of X1. *)
Lemma pause_twice_is_pause_witness :
  heap world0 !! 0 = Some client0 ∧
  ∃ w1, pause 0 world0 = Ret () w1 ∧ pause 0 w1 = Ret () w1.
Proof.
  split; [reflexivity|].
  exact (pause_twice_is_pause 0 client0 world0 world0_session).
Defined.

(** Witness of X2. *)
Lemma pause_stops_the_pushes_witness :
  heap world0 !! 0 = Some client0 ∧
  single_armed 0 world0 ∧
  ∃ w1,
    pause 0 world0 = Ret () w1 ∧
    heap w1 !! 0 = Some (with_interval None client0) ∧
    sent w1 = sent world0 ∧ pending w1 = pending world0 ∧
    (∀ t tm, armed w1 t = Some tm → tm_this tm ≠ 0) ∧
    ∀ evs w2, no_resume 0 evs → run env0 evs w1 = Some w2 →
              pushes_of 0 w2 = pushes_of 0 w1.
Proof.
  split; [reflexivity|]. split; [exact world0_single_armed|].
  exact (pause_stops_the_pushes env0 0 client0 world0 world0_session
           world0_single_armed).
Defined.

(** Witness of X3. *)
Lemma pause_then_resume_rearms_once_witness :
  heap world0 !! 0 = Some client0 ∧
  single_armed 0 world0 ∧
  ∃ w1 w2 t',
    pause 0 world0 = Ret () w1 ∧ resume 0 w1 = Ret () w2 ∧
    armed world0 t' = None ∧
    heap w2 !! 0 = Some (with_interval (Some t') client0) ∧
    armed w2 t' = Some {| tm_this := 0; tm_delay := _pushInterval client0 |} ∧
    (∀ t tm, armed w2 t = Some tm → tm_this tm = 0 → t = t') ∧
    single_armed 0 w2.
Proof.
  split; [reflexivity|]. split; [exact world0_single_armed|].
  exact (pause_then_resume_rearms_once 0 client0 world0 world0_session
           world0_single_armed).
Defined.

(** Witness of X4. *)
Lemma running_session_has_an_armed_interval_witness :
  reachable env0 world0 ∧
  heap world0 !! 0 = Some client0 ∧
  running client0 = true ∧
  ∃ t, _interval client0 = Some t ∧
       armed world0 t = Some {| tm_this := 0; tm_delay := _pushInterval client0 |} ∧
       ∃ w', step env0 (Tick t) world0 = Some w' ∧
             sent w' = sent world0 ++ [push_request 0 client0].
Proof.
  split; [exact world0_reachable|]. split; [reflexivity|]. split; [reflexivity|].
  exact (running_session_has_an_armed_interval env0 0 client0 world0
           world0_reachable world0_session eq_refl).
Defined.

Lemma world0_armed_0 :
  armed world0 0 = Some {| tm_this := 0; tm_delay := _pushInterval client0 |}.
Proof. exact (created_armed env0 opts0 labels0). Qed.

(** Witness of X5: two ticks, the initial push answered with an error in
    between, the second push answered without. *)
Lemma every_tick_pushes_whatever_the_answers_witness :
  let evs := [Tick 0; Response 0 (Some err0); Tick 0; Response 1 None] in
  heap world0 !! 0 = Some client0 ∧
  armed world0 0 = Some {| tm_this := 0; tm_delay := _pushInterval client0 |} ∧
  Forall (tick_or_answer 0) evs ∧
  ∃ w',
    run env0 evs world0 = Some w' ∧
    pushes_of 0 w' = pushes_of 0 world0 ++ replicate 2 (push_request 0 client0) ∧
    armed w' 0 = Some {| tm_this := 0; tm_delay := _pushInterval client0 |}.
Proof.
  intros evs.
  assert (Forall (tick_or_answer 0) evs) as Hevs by (repeat constructor).
  split; [reflexivity|]. split; [exact world0_armed_0|]. split; [exact Hevs|].
  destruct (run_ticks_and_answers env0 opts0 labels0 err0) as [w' Hrun].
  exists w'. split; [exact Hrun|].
  destruct (every_tick_pushes_whatever_the_answers env0 0 client0 0 world0
              world0_session world0_armed_0) as [_ H].
  exact (H evs w' Hevs Hrun).
Defined.

(** Witness of X6: the initial push of the scenario succeeds. *)
Lemma push_answer_only_logs_witness :
  heap world0 !! 0 = Some client0 ∧
  in_flight world0 0 = Some (push_request 0 client0) ∧
  ∃ w',
    step env0 (Response 0 None) world0 = Some w' ∧
    logs w' = logs world0 ++ [pushed_entry client0] ∧
    heap w' = heap world0 ∧ timers w' = timers world0 ∧ active w' = active world0 ∧
    sent w' = sent world0 ∧ promises w' = promises world0 ∧
    uncaught_once w' = uncaught_once world0 ∧ _default w' = _default world0 ∧
    in_flight w' 0 = None ∧
    (∀ r', r' ≠ 0 → in_flight w' r' = in_flight world0 r').
Proof.
  split; [reflexivity|]. split; [exact world0_in_flight|].
  exact (push_answer_only_logs env0 0 client0 0 (push_request 0 client0) None world0
           world0_session world0_in_flight eq_refl).
Defined.

(** Witness of X7: an [uncaughtException] in the scenario. *)
Lemma uncaught_exception_hook_is_one_shot_witness :
  ∃ w',
    step env0 UncaughtException world0 = Some w' ∧
    uncaught_once w' = [] ∧
    step env0 UncaughtException w' = None ∧
    ∀ l, l ∈ uncaught_once world0 →
         (∃ c, heap w' !! l = Some c ∧ running c = false) ∧
         length (deletes_of l world0) < length (deletes_of l w').
Proof.
  destruct (run_uncaught env0 opts0 labels0) as [w' Hstep].
  exists w'. split; [exact Hstep|].
  exact (uncaught_exception_hook_is_one_shot env0 world0 w' Hstep).
Defined.

(** Witness of X9: [start] on a new process. *)
Lemma first_start_is_create_into_the_slot_witness :
  _default init = None ∧
  ∃ w1 w' n c,
    create env0 opts0 (getDefaultLabels env0) init = Ret n w1 ∧
    start env0 opts0 init = Ret () w' ∧
    w' = with_default (Some n) w1 ∧
    heap w' !! n = Some c ∧ running c = true ∧
    sent w' = sent init ++ [push_request n c] ∧
    (∀ s, deletes_of s w' = deletes_of s init) ∧
    promises w' = promises init.
Proof.
  split; [reflexivity|].
  exact (first_start_is_create_into_the_slot env0 opts0 init eq_refl).
Defined.


(** Witness of X11: [start], a tick, [start] again, a tick of the new
    interval, the late answers. *)
Lemma through_start_only_the_held_session_pushes_witness :
  let evs := [CallStart opts0; Tick 0; CallStart opts0; Tick 1;
              Response 2 None; Response 0 (Some err0)] in
  Forall through_start evs ∧
  ∃ w,
    run env0 evs init = Some w ∧
    _default w = Some 1 ∧
    (∀ t tm, armed w t = Some tm →
             ∃ c, _default w = Some (tm_this tm) ∧
                  heap w !! tm_this tm = Some c ∧ _interval c = Some t) ∧
    (∀ t1 t2 tm1 tm2, armed w t1 = Some tm1 → armed w t2 = Some tm2 → t1 = t2).
Proof.
  intros evs.
  assert (Forall through_start evs) as Hevs by (repeat constructor).
  split; [exact Hevs|].
  destruct (run_through_start env0 opts0 err0) as (w & Hrun & Hd).
  exists w. split; [exact Hrun|]. split; [exact Hd|].
  exact (through_start_only_the_held_session_pushes env0 evs w Hevs Hrun).
Defined.

(** ** Listeners pile up *)

Lemma step_listeners env ev w w' :
  no_uncaught ev → step env ev w = Some w' →
  uncaught_once w = seq 0 (length (heap w)) →
  uncaught_once w' = seq 0 (length (heap w')).
Proof.
  intros Hev Hstep Hw. apply step_inv in Hstep.
  assert (∀ options labels w0,
            uncaught_once w0 = seq 0 (length (heap w0)) →
            uncaught_once (after_create env options labels w0) =
              seq 0 (length (heap (after_create env options labels w0)))) as Hcreate.
  { intros options labels w0 H0. cbn. rewrite length_insert, length_app, H0. cbn.
    by rewrite Nat.add_1_r, seq_S. }
  destruct ev as [t|r error| |s|s|s|options|options labels]; try done.
  - by destruct Hstep as (tm & c & _ & _ & ->).
  - destruct Hstep as (rq & c & _ & _ & ->).
    destruct (after_callback_frame (req_callback rq) c error
                (with_pending (pending w ∖ {[r]}) w))
      as (Hh & _ & _ & _ & _ & Hu & _).
    cbn zeta in *. by rewrite Hh, Hu.
  - destruct Hstep as (c & _ & ->). cbn. by rewrite length_insert.
  - destruct Hstep as (c & _ & ->). cbn. by rewrite length_insert.
  - destruct Hstep as (c & _ & ->). cbn. by rewrite length_insert.
  - destruct Hstep as (w0 & H0 & ->).
    apply (Hcreate options (getDefaultLabels env) w0).
    destruct (_default w) as [d|]; [|by subst w0].
    destruct H0 as (c & _ & ->). cbn. by rewrite length_insert.
  - subst w'. by apply Hcreate.
Qed.

(** X12.  [dispose] does not take the [uncaughtException] listener of its
    session off: as long as the process emits no [uncaughtException], one
    listener is registered for every session that was ever constructed,
    disposed of or not, in the order of construction. *)
Theorem listeners_pile_up env evs w :
  Forall no_uncaught evs →
  run env evs init = Some w →
  uncaught_once w = seq 0 (length (heap w)).
Proof.
  assert (uncaught_once init = seq 0 (length (heap init))) as Hinit by done.
  revert Hinit. generalize init.
  induction evs as [|ev evs IH]; intros w0 H0 Hevs; cbn.
  - by intros [= <-].
  - apply Forall_cons in Hevs as [Hev Hevs].
    destruct (step env ev w0) as [w1|] eqn:E; [|done].
    apply IH; [|done]. by apply (step_listeners env ev w0).
Qed.

(** Witness of X12: two sessions through [start], the first one disposed
    of by the second [start], and a [dispose] of the second. *)
Lemma listeners_pile_up_witness :
  let evs := [CallStart opts0; CallStart opts0; CallDispose 1] in
  Forall no_uncaught evs ∧
  ∃ w, run env0 evs init = Some w ∧
       length (heap w) = 2 ∧
       uncaught_once w = seq 0 (length (heap w)).
Proof.
  intros evs.
  assert (Forall no_uncaught evs) as Hevs by (repeat constructor).
  split; [exact Hevs|].
  destruct (run_two_starts env0 opts0) as (w & Hrun & Hlen).
  exists w. split; [exact Hrun|]. split; [exact Hlen|].
  exact (listeners_pile_up env0 evs w Hevs Hrun).
Defined.

(** ** Sessions do not interfere *)

(** X13.  In a process that runs from its start, an operation on one
    session leaves every other session alone: the operation returns, and a
    different session has the state it had, its interval is still armed if
    it was running, and it has sent nothing. *)
Theorem operations_spare_the_other_sessions env op s s' c c' w :
  reachable env w →
  heap w !! s = Some c →
  heap w !! s' = Some c' →
  s ≠ s' →
  ∃ w',
    perform op s w = Ret () w' ∧
    heap w' !! s' = Some c' ∧
    (∀ t, _interval c' = Some t →
          armed w' t = Some {| tm_this := s'; tm_delay := _pushInterval c' |}) ∧
    pushes_of s' w' = pushes_of s' w ∧ deletes_of s' w' = deletes_of s' w.
Proof.
  intros Hreach Hs Hs' Hne.
  pose proof (reachable_handles_armed env w Hreach) as Hw.
  assert (∀ w', heap w' !! s' = Some c' → handles_armed w' →
            ∀ t, _interval c' = Some t →
                 armed w' t = Some {| tm_this := s'; tm_delay := _pushInterval c' |})
    as Harmed by (intros w' Hc' Hw' t Hi; by apply Hw').
  assert (∀ h, <[s := with_interval h c]> (heap w) !! s' = Some c') as Hins
    by (intros h; by rewrite list_lookup_insert_ne).
  destruct op; cbn [perform].
  - exists (after_resume s c w). split; [by rewrite resume_eq, Hs|].
    split; [apply Hins|]. split; [|done].
    apply Harmed; [apply Hins|]. by apply handles_armed_resume.
  - exists (after_pause s c w). split; [by rewrite pause_eq, Hs|].
    split; [apply Hins|]. split; [|done].
    apply Harmed; [apply Hins|]. by apply handles_armed_pause.
  - exists (after_pushStats s c w). split; [by rewrite _pushStats_eq, Hs|].
    split; [done|]. split; [by apply Harmed|]. split.
    + rewrite (pushes_of_snoc s' w _ (push_request s c)) by done.
      unfold is_push_of. cbn. rewrite bool_decide_eq_false_2 by done.
      by rewrite app_nil_r.
    + rewrite (deletes_of_snoc s' w _ (push_request s c)) by done.
      cbn. by rewrite app_nil_r.
  - exists (after_dispose s c w). split; [unfold bind; by rewrite dispose_eq, Hs|].
    split; [apply Hins|]. split.
    + apply Harmed; [apply Hins|].
      apply (handles_armed_same (after_pause s c w)); [done..|].
      by apply handles_armed_pause.
    + split.
      * rewrite (pushes_of_snoc s' (after_pause s c w) _
                   (delete_request s c (length (promises w)))) by done.
        cbn. by rewrite app_nil_r.
      * rewrite (deletes_of_snoc s' (after_pause s c w) _
                   (delete_request s c (length (promises w)))) by done.
        unfold is_delete_of. cbn. rewrite bool_decide_eq_false_2 by done.
        by rewrite app_nil_r.
Qed.

(** Witness of X13: two sessions, the first one is disposed of. *)
Lemma operations_spare_the_other_sessions_witness :
  reachable env0 world_two ∧
  heap world_two !! 0 = Some client0 ∧
  heap world_two !! 1 = Some client1 ∧
  0 ≠ 1 ∧
  ∃ w',
    perform OpDispose 0 world_two = Ret () w' ∧
    heap w' !! 1 = Some client1 ∧
    (∀ t, _interval client1 = Some t →
          armed w' t = Some {| tm_this := 1; tm_delay := _pushInterval client1 |}) ∧
    pushes_of 1 w' = pushes_of 1 world_two ∧ deletes_of 1 w' = deletes_of 1 world_two.
Proof.
  assert (reachable env0 world_two) as Hreach.
  { exists [CallCreate opts0 labels0; CallCreate opts0 labels0].
    unfold run, step, task. by rewrite !create_eq. }
  assert (0 ≠ 1) as Hne by lia.
  split; [exact Hreach|]. split; [reflexivity|]. split; [reflexivity|].
  split; [exact Hne|].
  exact (operations_spare_the_other_sessions env0 OpDispose 0 1 client0 client1
           world_two Hreach eq_refl eq_refl Hne).
Defined.

(** ** The promise of [dispose] and its request *)

Lemma grows_refl w : grows w w.
Proof.
  exists 0, []. cbn. rewrite !app_nil_r.
  split; [done|]. split; [done|]. split; [done|].
  intros rq s p H. by apply elem_of_nil in H.
Qed.

Lemma grows_trans w1 w2 w3 : grows w1 w2 → grows w2 w3 → grows w1 w3.
Proof.
  intros (n1 & new1 & Hp1 & Hs1 & Hq1 & H1) (n2 & new2 & Hp2 & Hs2 & Hq2 & H2).
  exists (n1 + n2), (new1 ++ new2).
  assert (length (promises w2) = length (promises w1) + n1) as Hl2
    by (by rewrite Hp1, length_app, length_replicate).
  assert (length (promises w3) = length (promises w2) + n2) as Hl3
    by (by rewrite Hp2, length_app, length_replicate).
  split; [by rewrite Hp2, Hp1, replicate_add, app_assoc|].
  split; [by rewrite Hs2, Hs1, app_assoc|].
  split; [by etrans|].
  intros rq s p Hin Hcb. apply elem_of_app in Hin as [Hin|Hin].
  - specialize (H1 rq s p Hin Hcb). lia.
  - specialize (H2 rq s p Hin Hcb). lia.
Qed.

Lemma grows_same w w' :
  promises w' = promises w → sent w' = sent w → pending w' = pending w →
  grows w w'.
Proof.
  intros Hp Hs Hq. exists 0, []. cbn. rewrite !app_nil_r, Hq.
  split; [done|]. split; [done|]. split; [done|].
  intros rq s p H. by apply elem_of_nil in H.
Qed.

Lemma grows_push rq s w w' :
  req_callback rq = PushCallback s →
  promises w' = promises w → sent w' = sent w ++ [rq] →
  pending w ⊆ pending w' → grows w w'.
Proof.
  intros Hcb Hp Hs Hq. exists 0, [rq]. cbn. rewrite app_nil_r.
  split; [done|]. split; [done|]. split; [done|]. intros rq' s' p Hin Hcb'.
  apply list_elem_of_singleton in Hin as ->. congruence.
Qed.

Lemma grows_delete s c w : grows w (after_delete s c w).
Proof.
  exists 1, [delete_request s c (length (promises w))].
  split; [done|]. split; [done|]. split; [cbn; apply union_subseteq_r|].
  intros rq s' p Hin Hcb. apply list_elem_of_singleton in Hin as ->.
  cbn in Hcb. injection Hcb as _ <-. cbn. rewrite length_app. cbn. lia.
Qed.

Lemma grows_dispose s c w : grows w (after_dispose s c w).
Proof.
  apply (grows_trans _ (after_pause s c w)); [by apply grows_same|].
  apply grows_delete.
Qed.

Lemma grows_create env options labels w : grows w (after_create env options labels w).
Proof.
  apply (grows_push
           (push_request (length (heap w))
              (fresh_client (url_parse env (metricsPushgatewayUrl options))
                 (metricsPushgatewayPushInterval options)
                 (metricsJobName options) labels))
           (length (heap w))); [done..|].
  cbn. apply union_subseteq_r.
Qed.

Lemma grows_listeners ls w w' : run_listeners ls w = Ret () w' → grows w w'.
Proof.
  revert w. induction ls as [|l ls IH]; intros w; cbn [run_listeners].
  - unfold ret. intros [= <-]. apply grows_refl.
  - unfold bind. rewrite on_uncaughtException_eq.
    destruct (heap w !! l) as [c|] eqn:Hl; [|done]. intros Hrun.
    eapply grows_trans; [|by apply IH].
    apply (grows_trans _ (after_pause l c w)); [by apply grows_same|].
    apply grows_dispose.
Qed.

Lemma step_grows env ev w w' :
  (∀ r e, ev ≠ Response r e) → step env ev w = Some w' → grows w w'.
Proof.
  intros Hev Hstep. apply step_inv in Hstep.
  destruct ev as [t|r error| |s|s|s|options|options labels].
  - destruct Hstep as (tm & c & _ & _ & ->).
    apply (grows_push (push_request (tm_this tm) c) (tm_this tm)); [done..|].
    cbn. apply union_subseteq_r.
  - by destruct (Hev r error).
  - destruct Hstep as [_ Hrun].
    apply (grows_trans _ (with_uncaught_once [] w)); [by apply grows_same|].
    by eapply grows_listeners.
  - destruct Hstep as (c & _ & ->). by apply grows_same.
  - destruct Hstep as (c & _ & ->). by apply grows_same.
  - destruct Hstep as (c & _ & ->). apply grows_dispose.
  - destruct Hstep as (w0 & H0 & ->).
    apply (grows_trans _ w0).
    { destruct (_default w) as [d|]; [|subst w0; apply grows_refl].
      destruct H0 as (c & _ & ->). apply grows_dispose. }
    apply (grows_trans _ (after_create env options (getDefaultLabels env) w0));
      [apply grows_create|by apply grows_same].
  - subst w'. apply grows_create.
Qed.

Lemma grows_allocated w w' : grows w w' → promises_allocated w → promises_allocated w'.
Proof.
  intros (n & new & Hp & Hs & _ & Hnew) Hw r rq s p Hrq Hcb.
  rewrite Hs in Hrq. apply lookup_app_Some in Hrq as [Hrq|[_ Hrq]].
  - specialize (Hw r rq s p Hrq Hcb). rewrite Hp, length_app. lia.
  - apply list_elem_of_lookup_2 in Hrq. by destruct (Hnew rq s p Hrq Hcb).
Qed.

Lemma answer_frame env r error w w' :
  step env (Response r error) w = Some w' →
  ∃ rq, in_flight w r = Some rq ∧
        sent w' = sent w ∧ pending w' = pending w ∖ {[r]} ∧
        length (promises w') = length (promises w) ∧
        ∀ p, (∀ s, req_callback rq ≠ DisposeCallback s p) →
             promises w' !! p = promises w !! p.
Proof.
  intros Hstep. apply step_inv in Hstep as (rq & c & Hr & _ & ->).
  exists rq. split; [done|].
  destruct (after_callback_frame (req_callback rq) c error
              (with_pending (pending w ∖ {[r]}) w))
    as (_ & _ & _ & Hs & Hq & _).
  cbn zeta in *. split; [done|]. split; [done|].
  destruct (req_callback rq) as [s|s p0]; cbn; [split; done|].
  assert (∀ st w0, length (promises (settled p0 st w0)) = length (promises w0) ∧
                   ∀ p, p ≠ p0 → promises (settled p0 st w0) !! p = promises w0 !! p)
    as Hset.
  { intros st w0. unfold settled. destruct (promises w0 !! p0) as [[]|]; try done.
    cbn. split; [by rewrite length_insert|]. intros p Hne.
    by rewrite list_lookup_insert_ne. }
  destruct error as [e|]; cbn;
    match goal with |- context [settled p0 ?st ?w0] =>
      destruct (Hset st w0) as [Hlen Hp]
    end; (split; [done|]); intros p Hne; apply Hp; intros ->; by destruct (Hne s).
Qed.

Lemma step_allocated env ev w w' :
  step env ev w = Some w' → promises_allocated w → promises_allocated w'.
Proof.
  intros Hstep Hw.
  assert ((∃ r error, ev = Response r error) ∨ ∀ r error, ev ≠ Response r error)
    as [(r & error & ->)|Hev] by (destruct ev; eauto).
  - destruct (answer_frame env r error w w' Hstep) as (rq & _ & Hs & _ & Hlen & _).
    intros r0 rq0 s p. rewrite Hs, Hlen. apply Hw.
  - apply (grows_allocated w); [|done]. by apply (step_grows env ev).
Qed.

Lemma reachable_allocated env w : reachable env w → promises_allocated w.
Proof.
  intros [evs Hrun].
  assert (promises_allocated init) as Hinit by (by intros r rq s p Hrq).
  revert Hrun Hinit. generalize init.
  induction evs as [|ev evs IH]; intros w0; cbn.
  - by intros [= <-].
  - destruct (step env ev w0) as [w1|] eqn:E; [|done]. intros Hrun H0.
    apply (IH w1 Hrun). by apply (step_allocated env ev w0).
Qed.

Lemma step_awaits env ev p r s w w' :
  no_answer_to r ev → step env ev w = Some w' → awaits p r s w → awaits p r s w'.
Proof.
  intros Hev Hstep (Hp & (rq & Hr & Hcb) & Huniq).
  assert (r ∈ pending w ∧ sent w !! r = Some rq) as [Hin Hsent].
  { unfold in_flight in Hr. by case_decide. }
  destruct ev as [t|r' error| |s0|s0|s0|options|options labels].
  2: { cbn in Hev.
       destruct (answer_frame env r' error w w' Hstep)
         as (rq' & Hr' & Hs & Hq & _ & Hpr).
       assert (sent w !! r' = Some rq') as Hsent'.
       { unfold in_flight in Hr'. by case_decide. }
       split; [|split].
       - rewrite Hpr; [done|]. intros s' Hcb'. by destruct (Hev (Huniq r' rq' s' Hsent' Hcb')).
       - exists rq. split; [|done]. unfold in_flight. rewrite Hs, Hq.
         rewrite decide_True; [done|]. apply elem_of_difference. split; [done|].
         rewrite elem_of_singleton. congruence.
       - intros r0 rq0 s0. rewrite Hs. apply Huniq. }
  all: apply step_grows in Hstep as (n & new & Hps & Hs & Hq & Hnew); [|done].
  all: (split; [|split]);
    [ rewrite Hps; by apply lookup_app_l_Some
    | exists rq; split; [|done]; unfold in_flight;
      rewrite decide_True by (by apply Hq); rewrite Hs; by apply lookup_app_l_Some
    | intros r0 rq0 s1 Hrq0 Hcb0; rewrite Hs in Hrq0;
      apply lookup_app_Some in Hrq0 as [Hrq0|[_ Hrq0]];
      [ by eapply Huniq
      | apply list_elem_of_lookup_2 in Hrq0;
        destruct (Hnew rq0 s1 p Hrq0 Hcb0) as [Hle _];
        apply lookup_lt_Some in Hp; lia ] ].
Qed.

Lemma in_flight_sent w r rq : in_flight w r = Some rq → sent w !! r = Some rq.
Proof. unfold in_flight. by case_decide. Qed.

Lemma run_awaits env evs p r s rq w w' :
  Forall (no_answer_to r) evs → run env evs w = Some w' →
  awaits p r s w → in_flight w r = Some rq →
  awaits p r s w' ∧ in_flight w' r = Some rq.
Proof.
  revert w. induction evs as [|ev evs IH]; intros w Hevs; cbn.
  - by intros [= <-].
  - apply Forall_cons in Hevs as [Hev Hevs].
    destruct (step env ev w) as [w1|] eqn:E; [|done]. intros Hrun Haw Hr.
    pose proof (step_awaits env ev p r s w w1 Hev E Haw) as Haw1.
    apply (IH w1 Hevs Hrun Haw1).
    destruct Haw1 as (_ & (rq1 & Hr1 & _) & _). rewrite Hr1. f_equal.
    apply in_flight_sent in Hr, Hr1.
    apply step_evolves in E as [_ (new & Hsent & _)].
    rewrite Hsent in Hr1. rewrite (lookup_app_l_Some _ _ _ _ Hr) in Hr1. congruence.
Qed.

(** X14.  In a process that runs from its start, the promise [dispose]
    returns waits for the answer to its own delete request and for nothing
    else: whatever events follow other than that answer (ticks, answers to
    other requests, further calls of [dispose], [start], an
    [uncaughtException]), the promise is pending and the request in
    flight, and the answer, when it comes, resolves respectively rejects
    the promise. *)
Theorem dispose_promise_awaits_its_own_answer env s c w :
  reachable env w →
  heap w !! s = Some c →
  ∃ p w1,
    let r := length (sent w) in
    dispose s w = Ret p w1 ∧
    ∀ evs w2,
      Forall (no_answer_to r) evs → run env evs w1 = Some w2 →
      promises w2 !! p = Some Pending ∧
      in_flight w2 r = Some (delete_request s c p) ∧
      (∃ w3, step env (Response r None) w2 = Some w3 ∧
             promises w3 !! p = Some Resolved) ∧
      (∀ e, ∃ w3, step env (Response r (Some e)) w2 = Some w3 ∧
                  promises w3 !! p = Some (Rejected e)).
Proof.
  intros Hreach Hs. pose proof (lookup_lt_Some _ _ _ Hs) as Hlt.
  pose proof (reachable_allocated env w Hreach) as Halloc.
  set (p := length (promises w)). set (r := length (sent w)).
  set (w1 := after_dispose s c w).
  exists p, w1. cbn zeta. split; [by rewrite dispose_eq, Hs|].
  assert (in_flight w1 r = Some (delete_request s c p)) as Hr1.
  { unfold in_flight. cbn. rewrite decide_True by set_solver.
    by rewrite lookup_app_r, Nat.sub_diag. }
  assert (awaits p r s w1) as Haw.
  { split; [|split].
    - cbn. by rewrite lookup_app_r, Nat.sub_diag.
    - by exists (delete_request s c p).
    - intros r' rq' s' Hrq' Hcb'. cbn in Hrq'.
      apply lookup_app_Some in Hrq' as [Hrq'|[Hge Hrq']].
      + specialize (Halloc r' rq' s' p Hrq' Hcb'). unfold p in Halloc. lia.
      + apply lookup_lt_Some in Hrq' as Hl. cbn in Hl. unfold r. lia. }
  intros evs w2 Hevs Hrun.
  destruct (run_awaits env evs p r s (delete_request s c p) w1 w2 Hevs Hrun Haw Hr1)
    as [Haw2 Hr2].
  destruct Haw2 as (Hp2 & _ & _). split; [done|]. split; [done|].
  destruct (run_evolves env evs w1 w2 Hrun) as [Hf _].
  assert (heap w1 !! s = Some (with_interval None c)) as Hs1.
  { cbn. by rewrite list_lookup_insert_eq. }
  destruct (Hf s _ Hs1) as (c2 & Hs2 & _).
  assert (∀ error st,
            st = match error with Some e => Rejected e | None => Resolved end →
            ∃ w3, step env (Response r error) w2 = Some w3 ∧
                  promises w3 !! p = Some st) as Hsettle.
  { intros error st ->. cbn [step]. rewrite Hr2. unfold task. rewrite run_callback_eq.
    cbn [heap with_pending cb_this req_callback delete_request]. rewrite Hs2.
    eexists. split; [reflexivity|].
    destruct error as [e|]; cbn [after_callback after_on_deleted];
      by apply promises_settled. }
  split; [by apply (Hsettle None)|]. intros e. by apply (Hsettle (Some e)).
Qed.

(** Witness of X14: after [dispose] on the session of the scenario, the
    failing answer to the initial push, a second [dispose] and an
    [uncaughtException] leave the first promise pending. *)
Lemma dispose_promise_awaits_its_own_answer_witness :
  let evs := [Response 0 (Some err0); CallDispose 0; UncaughtException] in
  reachable env0 world0 ∧
  heap world0 !! 0 = Some client0 ∧
  Forall (no_answer_to (length (sent world0))) evs ∧
  ∃ p w1 w2,
    let r := length (sent world0) in
    dispose 0 world0 = Ret p w1 ∧
    run env0 evs w1 = Some w2 ∧
    promises w2 !! p = Some Pending ∧
    in_flight w2 r = Some (delete_request 0 client0 p) ∧
    (∃ w3, step env0 (Response r None) w2 = Some w3 ∧
           promises w3 !! p = Some Resolved) ∧
    (∀ e, ∃ w3, step env0 (Response r (Some e)) w2 = Some w3 ∧
                promises w3 !! p = Some (Rejected e)).
Proof.
  intros evs.
  assert (Forall (no_answer_to (length (sent world0))) evs) as Hevs.
  { repeat constructor. cbn. lia. }
  split; [exact world0_reachable|]. split; [reflexivity|]. split; [exact Hevs|].
  destruct (dispose_promise_awaits_its_own_answer env0 0 client0 world0
              world0_reachable world0_session) as (p & w1 & Hd & H).
  cbn zeta in *. rewrite dispose_eq, world0_session in Hd. injection Hd as <- <-.
  destruct (run_after_dispose env0 opts0 labels0 err0) as [w2 Hrun].
  exists (length (promises world0)), (after_dispose 0 client0 world0), w2.
  split; [by rewrite dispose_eq, world0_session|]. split; [exact Hrun|].
  exact (H evs w2 Hevs Hrun).
Defined.
